(** * midi-logger: the note formatters of [src/formatters.ts]

    A shallow embedding of the three formatters (raw, scientific and the
    key-aware ABC formatter) and of the dispatch in
    [MIDILogger.writeNoteToEditor] of [src/main.ts], followed by the
    properties of the key-aware pitch-spelling engine.

    Conventions of the embedding:
    - a JavaScript number holding an integer is a [Z]; [%] is the truncated
      remainder [Z.rem] and [Math.floor(a / b)] with a positive [b] is the
      floor division [Z.div];
    - a JavaScript string is a [string]; each [ascii] is one code unit in
      the range 0..255, which covers every literal of the source;
    - a JavaScript object used as a table is a [gmap]; a read of a missing
      key is [None] (the value [undefined]);
    - a [for] loop over a counter is a function by well-founded recursion
      that tests the source's guard at every turn. *)

From Stdlib Require Import ZArith String Ascii DecimalString DecimalPos DecimalZ.
From stdpp Require Import gmap strings list fin_maps.
From Equations Require Import Equations.

Local Open Scope string_scope.
Local Open Scope Z_scope.

(** ** The JavaScript primitives the formatters rely on *)

Module JS.

(** Code units that [String.prototype.trim] strips (WhiteSpace and
    LineTerminator of ECMAScript) among the code units 0..255: TAB, LF,
    VT, FF, CR, SPACE and NO-BREAK SPACE. *)
Definition isWhiteSpace (c : ascii) : bool :=
  let n := nat_of_ascii c in
  ((9 <=? n) && (n <=? 13) || (n =? 32) || (n =? 160))%nat.

Fixpoint trimStart (s : string) : string :=
  match s with
  | EmptyString => EmptyString
  | String c rest => if isWhiteSpace c then trimStart rest else s
  end.

Fixpoint trimEnd (s : string) : string :=
  match s with
  | EmptyString => EmptyString
  | String c rest =>
      match trimEnd rest with
      | EmptyString => if isWhiteSpace c then EmptyString else String c EmptyString
      | kept => String c kept
      end
  end.

(** [x.trim()] *)
Definition trim (s : string) : string := trimEnd (trimStart s).

(** One code unit of [toLowerCase]: A-Z, and the upper-case letters of
    the Latin-1 block (U+00C0..U+00DE but the multiplication sign). *)
Definition lowerUnit (c : ascii) : ascii :=
  let n := nat_of_ascii c in
  if ((65 <=? n) && (n <=? 90)
      || (192 <=? n) && (n <=? 222) && negb (n =? 215))%nat
  then ascii_of_nat (n + 32) else c.

(** [s.toLowerCase()] *)
Fixpoint toLowerCase (s : string) : string :=
  match s with
  | EmptyString => EmptyString
  | String c rest => String (lowerUnit c) (toLowerCase rest)
  end.

(** The text a template literal gives an integer number: its decimal
    digits, after a minus sign when it is negative. *)
Definition numberToString (n : Z) : string :=
  NilZero.string_of_int (Z.to_int n).

(** The text a template literal gives a string that may be [undefined]. *)
Definition templateString (v : option string) : string :=
  match v with
  | Some s => s
  | None => "undefined"
  end.

(** [arr[i]] for a number [i] holding an integer: [undefined] when [i] is
    negative or past the end. *)
Definition index {T : Type} (arr : list T) (i : Z) : option T :=
  if i <? 0 then None else arr !! Z.to_nat i.

(** The property names every object literal inherits from
    [Object.prototype]. *)
Definition objectPrototypeKeys : list string :=
  [ "constructor"; "hasOwnProperty"; "isPrototypeOf";
    "propertyIsEnumerable"; "toLocaleString"; "toString"; "valueOf";
    "__proto__"; "__defineGetter__"; "__defineSetter__";
    "__lookupGetter__"; "__lookupSetter__" ].

(** What a property read yields on an object literal whose own
    properties are numbers: the number of an own property, or the
    function (or object) found on the prototype. *)
Inductive PropValue : Type :=
| OwnNumber (n : nat)
| Inherited.

(** [obj[x]] *)
Definition getProp (obj : gmap string nat) (x : string) : option PropValue :=
  match obj !! x with
  | Some n => Some (OwnNumber n)
  | None =>
      if bool_decide (x ∈ objectPrototypeKeys) then Some Inherited else None
  end.

(** [x in obj]: own and inherited properties alike. *)
Definition hasProp (obj : gmap string nat) (x : string) : bool :=
  match getProp obj x with
  | Some _ => true
  | None => false
  end.

(** [i < v] for a loop counter [i]: a function or object converts to NaN,
    and every comparison with NaN is false. *)
Definition ltProp (i : nat) (v : PropValue) : bool :=
  match v with
  | OwnNumber n => (i <? n)%nat
  | Inherited => false
  end.

(** How many turns a loop [for (i; i < v; i++)] still has to run. *)
Definition turnsLeft (i : nat) (v : PropValue) : nat :=
  match v with
  | OwnNumber n => (n - i)%nat
  | Inherited => 0%nat
  end.

End JS.

(** ** [src/formatters.ts] *)

(** [rawFormatter.format] *)
Definition rawFormatter_format (MIDInote : Z) (separator : string) : string :=
  JS.numberToString MIDInote +:+ separator.

Definition noteNames : list string :=
  ["C"; "C#"; "D"; "D#"; "E"; "F"; "F#"; "G"; "G#"; "A"; "A#"; "B"].

(** [scientificFormatter.format] *)
Definition scientificFormatter_format (MIDInote : Z) (separator : string) : string :=
  let noteName := JS.index noteNames (MIDInote `rem` 12) in
  let octave := MIDInote `div` 12 - 1 in
  let noteString :=
    JS.templateString noteName +:+ JS.numberToString octave +:+ separator in
  noteString.

(** The types local to [ABCFormatter.format]. *)
Inductive Letter : Type := LA | LB | LC | LD | LE | LF | LG.

Inductive Acc : Type := natural | sharp | flat.

Record Spelling : Type := mkSpelling { letter : Letter; acc : Acc }.

(** The string a [Letter] is at run time. *)
Definition letterName (l : Letter) : string :=
  match l with
  | LA => "A" | LB => "B" | LC => "C" | LD => "D"
  | LE => "E" | LF => "F" | LG => "G"
  end.

Definition Letter_to_nat (l : Letter) : nat :=
  match l with
  | LA => 0 | LB => 1 | LC => 2 | LD => 3 | LE => 4 | LF => 5 | LG => 6
  end%nat.

Definition Letter_of_nat (n : nat) : Letter :=
  match n with
  | 0 => LA | 1 => LB | 2 => LC | 3 => LD | 4 => LE | 5 => LF | _ => LG
  end%nat.

#[global] Instance Letter_eq_dec : EqDecision Letter.
Proof. solve_decision. Defined.

#[global] Instance Acc_eq_dec : EqDecision Acc.
Proof. solve_decision. Defined.

#[global] Instance Spelling_eq_dec : EqDecision Spelling.
Proof. solve_decision. Defined.

#[global] Instance Letter_countable : Countable Letter :=
  inj_countable' Letter_to_nat Letter_of_nat
    (fun l => match l with
              | LA | LB | LC | LD | LE | LF | LG => eq_refl
              end).

(** Lines 28-29: the pitch class and the octave of a note number. *)
Definition pitchClass (MIDInote : Z) : Z := ((MIDInote `rem` 12) + 12) `rem` 12.

Definition octaveOf (MIDInote : Z) : Z := MIDInote `div` 12 - 1.

(** [candMap]: the candidate spellings of the twelve pitch classes. *)
Definition candMap : gmap Z (list Spelling) :=
  list_to_map
    [ (0,  [mkSpelling LC natural]);
      (1,  [mkSpelling LC sharp; mkSpelling LD flat]);
      (2,  [mkSpelling LD natural]);
      (3,  [mkSpelling LD sharp; mkSpelling LE flat]);
      (4,  [mkSpelling LE natural]);
      (5,  [mkSpelling LF natural]);
      (6,  [mkSpelling LF sharp; mkSpelling LG flat]);
      (7,  [mkSpelling LG natural]);
      (8,  [mkSpelling LG sharp; mkSpelling LA flat]);
      (9,  [mkSpelling LA natural]);
      (10, [mkSpelling LA sharp; mkSpelling LB flat]);
      (11, [mkSpelling LB natural]) ].

(** [normalizeKey] *)
Definition normalizeKey (x : string) : string := JS.trim x.

(** [preferFlatsInTie] *)
Definition preferFlatsInTie (x : string) : bool :=
  if bool_decide (x = "C") then true
  else bool_decide (x ∈ ["F"; "Bb"; "Eb"; "Ab"; "Db"; "Gb"; "Cb"]).

(** The tables of [keySignatureDefaults]. *)
Definition allNatural : gmap Letter Acc :=
  list_to_map
    [ (LA, natural); (LB, natural); (LC, natural); (LD, natural);
      (LE, natural); (LF, natural); (LG, natural) ].

Definition sharpsOrder : list Letter := [LF; LC; LG; LD; LA; LE; LB].
Definition flatsOrder : list Letter := [LB; LE; LA; LD; LG; LC; LF].

Definition keyToSharpsCount : gmap string nat :=
  list_to_map
    [ ("C", 0); ("G", 1); ("D", 2); ("A", 3); ("E", 4); ("B", 5);
      ("F#", 6); ("C#", 7) ]%nat.

Definition keyToFlatsCount : gmap string nat :=
  list_to_map
    [ ("C", 0); ("F", 1); ("Bb", 2); ("Eb", 3); ("Ab", 4); ("Db", 5);
      ("Gb", 6); ("Cb", 7) ]%nat.

(** [for (let i = ...; i < n; i++) defaults[order[i]] = mark], entered with
    the counter at [i]. An index past the end of [order] would write the
    property ["undefined"], which is no letter and is never read back. *)
Equations? markLoop (order : list Letter) (mark : Acc) (n : JS.PropValue)
    (i : nat) (defaults : gmap Letter Acc) : gmap Letter Acc
    by wf (JS.turnsLeft i n) lt :=
  markLoop order mark n i defaults :=
    if decide (JS.ltProp i n)
    then markLoop order mark n (S i)
           (match order !! i with
            | Some l => <[l := mark]> defaults
            | None => defaults
            end)
    else defaults.
Proof.
  destruct n as [n|]; simpl in *; [|done].
  match goal with
  | guard : Is_true _ |- _ => apply Is_true_true, Nat.ltb_lt in guard; lia
  end.
Qed.

(** [keySignatureDefaults] *)
Definition keySignatureDefaults (x : string) : gmap Letter Acc :=
  let defaults := allNatural in
  if JS.hasProp keyToSharpsCount x then
    match JS.getProp keyToSharpsCount x with
    | Some n => markLoop sharpsOrder sharp n 0 defaults
    | None => defaults
    end
  else if JS.hasProp keyToFlatsCount x then
    match JS.getProp keyToFlatsCount x with
    | Some n => markLoop flatsOrder flat n 0 defaults
    | None => defaults
    end
  else defaults.

(** [accidentalPrefix]; the default is what [keyDefaults[best.letter]]
    yielded. *)
Definition accidentalPrefix (a : Acc) (defaultAcc : option Acc) : string :=
  if bool_decide (Some a = defaultAcc) then ""
  else if bool_decide (a = sharp) then "^"
  else if bool_decide (a = flat) then "_"
  else "=".

(** [for (let i = oct; i < 4; i++) out += ','], entered with the counter
    at [i]. *)
Equations? commaLoop (i : Z) (out : string) : string
    by wf (Z.to_nat (4 - i)) lt :=
  commaLoop i out :=
    if decide (i < 4) then commaLoop (i + 1) (out +:+ ",") else out.
Proof. lia. Qed.

(** [for (let i = oct; i > 5; i--) out += "'"], entered with the counter
    at [i]. *)
Equations? tickLoop (i : Z) (out : string) : string
    by wf (Z.to_nat (i - 5)) lt :=
  tickLoop i out :=
    if decide (i > 5) then tickLoop (i - 1) (out +:+ "'") else out.
Proof. lia. Qed.

(** [applyAbcOctave] *)
Definition applyAbcOctave (l : Letter) (oct : Z) : string :=
  if bool_decide (oct <= 4) then
    let out := letterName l in
    commaLoop oct out
  else
    let out := JS.toLowerCase (letterName l) in
    tickLoop oct out.

(** The state of the selection loop (lines 55-77): [best] and [bestCost]. *)
Record Selection : Type := mkSelection { best : Spelling; bestCost : Z }.

(** Lines 59-61: the [cost] of a candidate, one notated accidental or
    none. *)
Definition candCost (keyDefaults : gmap Letter Acc) (cand : Spelling) : Z :=
  let def := keyDefaults !! letter cand in
  let needed := negb (bool_decide (Some (acc cand) = def)) in
  if needed then 1 else 0.

(** One turn of [for (const cand of candidates)]. *)
Definition selectStep (keyDefaults : gmap Letter Acc) (preferFlats : bool)
    (st : Selection) (cand : Spelling) : Selection :=
  let cost := candCost keyDefaults cand in
  if bool_decide (cost < bestCost st) then
    mkSelection cand cost
  else if bool_decide (cost = bestCost st) then
    if preferFlats then
      if bool_decide (acc cand = flat) && negb (bool_decide (acc (best st) = flat))
      then mkSelection cand (bestCost st) else st
    else
      if bool_decide (acc cand = sharp) && negb (bool_decide (acc (best st) = sharp))
      then mkSelection cand (bestCost st) else st
  else st.

(** Lines 55-77: [best] after the loop. [candidates[0]] is [undefined] on
    an empty list, and the read [best.acc] on line 79 then throws: [None]. *)
Definition selectBest (candidates : list Spelling)
    (keyDefaults : gmap Letter Acc) (preferFlats : bool) : option Spelling :=
  match candidates !! 0%nat with
  | None => None
  | Some first =>
      Some (best (foldl (selectStep keyDefaults preferFlats)
                        (mkSelection first 999) candidates))
  end.

(** [ABCFormatter.format]; [None] stands for a thrown TypeError. *)
Definition ABCFormatter_format (MIDInote : Z) (_separator : string)
    (key : string) : option string :=
  let pc := pitchClass MIDInote in
  let octave := octaveOf MIDInote in
  let k := normalizeKey key in
  let keyDefaults := keySignatureDefaults k in
  let preferFlats := preferFlatsInTie k in
  let candidates := default [mkSpelling LC natural] (candMap !! pc) in
  match selectBest candidates keyDefaults preferFlats with
  | None => None
  | Some best =>
      let accPrefix := accidentalPrefix (acc best) (keyDefaults !! letter best) in
      let noteBody := applyAbcOctave (letter best) octave in
      Some (accPrefix +:+ noteBody)
  end.

(** [ABCFormatter.format] called without its third argument: [key = 'C']. *)
Definition ABCFormatter_format_default (MIDInote : Z) (_separator : string)
    : option string :=
  ABCFormatter_format MIDInote _separator "C".

(** ** [src/main.ts] *)

Inductive ExportType : Type := RawMessage | Scientific | ABC.

Record MIDILoggerSettings : Type :=
  mkSettings { exportType : ExportType; separator : string }.

(** The [switch] of [writeNoteToEditor]: the text handed to the editor. *)
Definition noteString (settings : MIDILoggerSettings) (currentKey : string)
    (note : Z) : option string :=
  match exportType settings with
  | RawMessage => Some (rawFormatter_format note (separator settings))
  | Scientific => Some (scientificFormatter_format note (separator settings))
  | ABC => ABCFormatter_format note (separator settings) currentKey
  end.

(** The key names offered by [KeySelectModal]. *)
Definition keys : list string :=
  [ "C"; "G"; "D"; "A"; "E"; "B"; "F#"; "C#";
    "F"; "Bb"; "Eb"; "Ab"; "Db"; "Gb"; "Cb" ].

(** [input.onmidimessage], set in [enable] (lines 70-82): the note handed
    to [writeNoteToEditor], if any. [data] is the [Uint8Array] of the
    message, a list of bytes; an element past its end is [undefined], which
    [>>] and [&] read as 0 and for which [> 0] is false. *)
Definition onmidimessage (data : list Z) : option Z :=
  let status := data !! 0%nat in
  let data1 := data !! 1%nat in
  let data2 := data !! 2%nat in
  let command := Z.shiftr (default 0 status) 4 in
  let channel := Z.land (default 0 status) 15 in
  if bool_decide (command = 9) && bool_decide (channel = 0) then
    let note := data1 in
    let velocity := data2 in
    match velocity with
    | Some v => if bool_decide (v > 0) then note else None
    | None => None
    end
  else None.

(** [KeySelectModal]: its two fields. *)
Record KeySelectModal : Type :=
  mkModal { result : option string; selected : string }.

(** [new KeySelectModal(app, initialKey)] *)
Definition KeySelectModal_new (initialKey : string) : KeySelectModal :=
  mkModal None initialKey.

(** What the user does with the open modal: pick an option of the
    dropdown, press OK, press Cancel. *)
Inductive ModalEvent : Type :=
| DropChange (v : string)
| OkClick
| CancelClick.

(** The handlers set in [onOpen], run over the user's events. Both buttons
    call [close()], after which nothing more arrives; a modal dismissed
    without a button keeps the [result] it has. *)
Fixpoint runModal (m : KeySelectModal) (events : list ModalEvent)
    : KeySelectModal :=
  match events with
  | [] => m
  | DropChange v :: rest => runModal (mkModal (result m) v) rest
  | OkClick :: _ => mkModal (Some (selected m)) (selected m)
  | CancelClick :: _ => mkModal None (selected m)
  end.

(** The state of the plugin that the commands read and write: the
    [enabled] flag, the key of the capture and the text of the status bar
    item. *)
Record MIDILogger : Type :=
  mkLogger { enabled : bool; currentKey : string; mainStatusBar : string }.

(** The fields as the class initialises them, with the empty status bar
    item of [onload]. *)
Definition MIDILogger_new : MIDILogger := mkLogger false "C" "".

(** [promptKey]: what the modal resolves to when it closes. *)
Definition promptKey (this : MIDILogger) (events : list ModalEvent)
    : option string :=
  result (runModal (KeySelectModal_new (currentKey this)) events).

(** [enable], given what the user does in the modal and whether
    [requestMIDIAccess] grants access or throws. [!key] holds of [null] and
    of the empty string. *)
Definition enable (this : MIDILogger) (events : list ModalEvent)
    (granted : bool) : MIDILogger :=
  match promptKey this events with
  | None => this
  | Some key =>
      if bool_decide (key = "") then this
      else
        let this := mkLogger (enabled this) key (mainStatusBar this) in
        if granted
        then mkLogger true (currentKey this) "Key-aware MIDI Logger is active"
        else this
  end.

(** [disable] *)
Definition disable (this : MIDILogger) : MIDILogger :=
  mkLogger false (currentKey this) "".

(** The ways into [enable] and [disable] that [onload] registers: the
    ribbon icon, the two commands (run, not merely checked) and
    [onunload]. *)
Inductive UserAction : Type :=
| RibbonClick (events : list ModalEvent) (granted : bool)
| StartCapture (events : list ModalEvent) (granted : bool)
| StopCapture
| Unload.

(** One action, each call of [enable] running to its end before the next
    action. *)
Definition act (this : MIDILogger) (a : UserAction) : MIDILogger :=
  match a with
  | RibbonClick events granted =>
      if enabled this then disable this else enable this events granted
  | StartCapture events granted =>
      if negb (enabled this) then enable this events granted else this
  | StopCapture => if enabled this then disable this else this
  | Unload => if enabled this then disable this else this
  end.

(** ** Reading aids for the statements below *)

(** [k] copies of the mark [c]. *)
Fixpoint marks (c : ascii) (k : nat) : string :=
  match k with
  | O => EmptyString
  | S k' => String c (marks c k')
  end.

(** The lower-case name of a letter. *)
Definition lowerName (l : Letter) : string :=
  match l with
  | LA => "a" | LB => "b" | LC => "c" | LD => "d"
  | LE => "e" | LF => "f" | LG => "g"
  end.

(** The value of a string of decimal digits, most significant first. *)
Fixpoint digitsValue (s : string) (sofar : Z) : option Z :=
  match s with
  | EmptyString => Some sofar
  | String c rest =>
      let d := nat_of_ascii c in
      if ((48 <=? d) && (d <=? 57))%nat
      then digitsValue rest (10 * sofar + Z.of_nat (d - 48))
      else None
  end.

(** The integer a decimal numeral denotes: digits without a leading zero
    (but for ["0"] itself), after a minus sign for a negative number. *)
Definition decimalValue (s : string) : option Z :=
  match s with
  | EmptyString => None
  | String "-" EmptyString => None
  | String "-" (String "0" _) => None
  | String "-" rest => Z.opp <$> digitsValue rest 0
  | String "0" (String _ _) => None
  | _ => digitsValue s 0
  end.

(** The glyph of an accidental that the key signature does not imply. *)
Definition accGlyph (a : Acc) : string :=
  match a with
  | sharp => "^"
  | flat => "_"
  | natural => "="
  end.

(** The candidates of a pitch class (line 51) and the spelling the loop
    of lines 55-77 picks among them under the key [k]. *)
Definition candidatesOf (pc : Z) : list Spelling :=
  default [mkSpelling LC natural] (candMap !! pc).

Definition selection (pc : Z) (k : string) : option Spelling :=
  selectBest (candidatesOf pc) (keySignatureDefaults k) (preferFlatsInTie k).

(** The glyph and the letter the formatter writes for a pitch class, under
    given defaults and tie-break preference (lines 51-79). *)
Definition spell (pc : Z) (keyDefaults : gmap Letter Acc) (preferFlats : bool)
    : option (string * Letter) :=
  (λ b, (accidentalPrefix (acc b) (keyDefaults !! letter b), letter b))
    <$> selectBest (candidatesOf pc) keyDefaults preferFlats.

(** Line 80 and 82: the letter with its octave marks, after the glyph. *)
Definition render (octave : Z) (gl : string * Letter) : string :=
  gl.1 +:+ applyAbcOctave gl.2 octave.

(** Whether [sub] occurs in [s] as a run of consecutive characters. *)
Fixpoint occursIn (sub s : string) : bool :=
  String.prefix sub s
  || match s with
     | EmptyString => false
     | String _ rest => occursIn sub rest
     end.

(** The pitch class of a natural letter, the shift of an accidental and
    the note number a spelling denotes in an octave (middle C, the C of
    octave 4, is 60). *)
Definition semitone (l : Letter) : Z :=
  match l with
  | LC => 0 | LD => 2 | LE => 4 | LF => 5 | LG => 7 | LA => 9 | LB => 11
  end.

Definition accOffset (a : Acc) : Z :=
  match a with
  | natural => 0
  | sharp => 1
  | flat => -1
  end.

Definition spellingPitch (octave : Z) (s : Spelling) : Z :=
  12 * (octave + 1) + semitone (letter s) + accOffset (acc s).

(** Reading a note of ABC notation back: the glyph, if any, the letter and
    its case, and the octave marks. *)
Definition readGlyph (s : string) : option Acc * string :=
  match s with
  | String "^" rest => (Some sharp, rest)
  | String "_" rest => (Some flat, rest)
  | String "=" rest => (Some natural, rest)
  | _ => (None, s)
  end.

Definition readLetter (c : ascii) : option (Letter * bool) :=
  match c with
  | "A" => Some (LA, false) | "B" => Some (LB, false)
  | "C" => Some (LC, false) | "D" => Some (LD, false)
  | "E" => Some (LE, false) | "F" => Some (LF, false)
  | "G" => Some (LG, false)
  | "a" => Some (LA, true) | "b" => Some (LB, true)
  | "c" => Some (LC, true) | "d" => Some (LD, true)
  | "e" => Some (LE, true) | "f" => Some (LF, true)
  | "g" => Some (LG, true)
  | _ => None
  end%char.

Fixpoint countMarks (c : ascii) (s : string) : option nat :=
  match s with
  | EmptyString => Some 0%nat
  | String d rest => if Ascii.eqb d c then S <$> countMarks c rest else None
  end.

(** The note number an ABC note denotes under a key signature: an upper-case
    letter is in octave 4, lowered by each comma; a lower-case letter is in
    octave 5, raised by each apostrophe; without a glyph the accidental is
    that of the key signature. *)
Definition readAbc (keyDefaults : gmap Letter Acc) (s : string) : option Z :=
  let '(glyph, rest) := readGlyph s in
  match rest with
  | EmptyString => None
  | String c marked =>
      match readLetter c with
      | None => None
      | Some (l, lower) =>
          match (if lower then countMarks "'" marked else countMarks "," marked),
                (match glyph with Some a => Some a | None => keyDefaults !! l end)
          with
          | Some k, Some a =>
              let octave := if lower then 5 + Z.of_nat k else 4 - Z.of_nat k in
              Some (spellingPitch octave (mkSpelling l a))
          | _, _ => None
          end
      end
  end.

(** The pitch class of the tonic a key name spells: a letter, then nothing,
    "#" or "b". *)
Definition keyTonic (key : string) : option Z :=
  match key with
  | String c rest =>
      match readLetter c, rest with
      | Some (l, false), EmptyString => Some (semitone l)
      | Some (l, false), String "#" EmptyString => Some ((semitone l + 1) `mod` 12)
      | Some (l, false), String "b" EmptyString => Some ((semitone l - 1) `mod` 12)
      | _, _ => None
      end
  | EmptyString => None
  end.

(** The events of a modal session pick only options that the dropdown
    offers, and so do the sessions of a user action. *)
Definition offered (events : list ModalEvent) : Prop :=
  ∀ v, DropChange v ∈ events → v ∈ keys.

Definition actionOffered (a : UserAction) : Prop :=
  match a with
  | RibbonClick events _ | StartCapture events _ => offered events
  | StopCapture | Unload => True
  end.

(** What every command keeps: the key is a supported one, and the status
    bar tells whether the capture is on. *)
Definition captureInvariant (this : MIDILogger) : Prop :=
  currentKey this ∈ keys ∧
  mainStatusBar this
  = (if enabled this then "Key-aware MIDI Logger is active" else "").

(** The accidental a tie is broken toward. *)
Definition preferred (preferFlats : bool) : Acc :=
  if preferFlats then flat else sharp.

(** What the selection loop has established once it has gone through the
    candidates [seen]: [best] is one of them, [bestCost] is its cost and
    the least cost seen; [best] has the preferred accidental if a candidate
    of that cost has it; and every candidate seen before [best] costs more,
    or lacks the preferred accidental that [best] has. *)
Definition loopInvariant (keyDefaults : gmap Letter Acc) (preferFlats : bool)
    (seen : list Spelling) (st : Selection) : Prop :=
  bestCost st = candCost keyDefaults (best st) ∧
  (∀ c, c ∈ seen → bestCost st ≤ candCost keyDefaults c) ∧
  (∀ c, c ∈ seen → acc c = preferred preferFlats →
        candCost keyDefaults c = bestCost st →
        acc (best st) = preferred preferFlats) ∧
  (∃ i : nat,
     seen !! i = Some (best st) ∧
     ∀ (j : nat) c, (j < i)%nat → seen !! j = Some c →
       bestCost st < candCost keyDefaults c
       ∨ (acc (best st) = preferred preferFlats ∧ acc c ≠ preferred preferFlats)).

(** [lo, lo+1, ..., lo+len-1] *)
Definition Zrange (lo : Z) (len : nat) : list Z :=
  (λ k : nat, lo + Z.of_nat k) <$> seq 0 len.

(** The pitch classes of the white and of the black keys. *)
Definition whiteClasses : list Z := [0; 2; 4; 5; 7; 9; 11].
Definition blackClasses : list Z := [1; 3; 6; 8; 10].

(** A decidable statement about closed terms, settled by evaluation. *)
Ltac by_computation := apply (bool_decide_unpack _); vm_compute; exact I.

(** The picks of a given modal session are among the options offered. *)
Ltac offered_by_cases :=
  intros ? Hpick; revert Hpick; rewrite !elem_of_cons, elem_of_nil;
  intros Hpick;
  repeat (destruct Hpick as [Hpick|Hpick];
          [try discriminate Hpick; injection Hpick as ->; by_computation|]);
  destruct Hpick.

(** ** Arithmetic of the decomposition *)

Section Decompose.

Lemma pitchClass_mod (n : Z) : pitchClass n = n `mod` 12.
Proof.
  unfold pitchClass.
  pose proof (Z.rem_bound_abs n 12) as Habs.
  pose proof (Z.quot_rem' n 12) as Hquot.
  assert (Hnn : 0 ≤ n `rem` 12 + 12) by lia.
  rewrite (Z.rem_mod_nonneg _ 12) by lia.
  pose proof (Z.div_mod n 12) as Hdiv.
  symmetry.
  apply (Z.mod_unique_pos _ _ (n `div` 12 - n `quot` 12 + 1)); [|lia].
  apply Z.mod_pos_bound. lia.
Qed.

Lemma pitchClass_range (n : Z) : 0 ≤ pitchClass n < 12.
Proof. rewrite pitchClass_mod. apply Z.mod_pos_bound. lia. Qed.

Lemma pitchClass_period (n : Z) : pitchClass (n + 12) = pitchClass n.
Proof.
  rewrite !pitchClass_mod.
  replace (n + 12) with (n + 1 * 12) by lia.
  apply Z.mod_add. lia.
Qed.

Lemma octaveOf_period (n : Z) : octaveOf (n + 12) = octaveOf n + 1.
Proof.
  unfold octaveOf.
  replace (n + 12) with (n + 1 * 12) by lia.
  rewrite Z.div_add by lia. lia.
Qed.

Lemma octaveOf_floor (n : Z) :
  12 * (octaveOf n + 1) ≤ n < 12 * (octaveOf n + 1) + 12.
Proof.
  unfold octaveOf.
  pose proof (Z.div_mod n 12) as Hdm.
  pose proof (Z.mod_pos_bound n 12) as Hb.
  lia.
Qed.

End Decompose.

(** C7: for every integer note number [n], the pitch class computed on
    line 28 is [((n mod 12) + 12) mod 12] (with the truncated remainder of
    the language as well as with the mathematical one), it lies in
    [0, 11], the octave of line 29 is [floor(n / 12) - 1], and [n + 12]
    has the same pitch class and the next octave. *)
Theorem decompose_correct (n : Z) :
  pitchClass n = ((n `rem` 12) + 12) `rem` 12 ∧
  pitchClass n = ((n `mod` 12) + 12) `mod` 12 ∧
  0 ≤ pitchClass n ≤ 11 ∧
  octaveOf n = n `div` 12 - 1 ∧
  12 * (octaveOf n + 1) ≤ n < 12 * (octaveOf n + 1) + 12 ∧
  pitchClass (n + 12) = pitchClass n ∧
  octaveOf (n + 12) = octaveOf n + 1.
Proof.
  pose proof (pitchClass_range n) as Hr.
  split; [reflexivity|].
  split.
  { rewrite pitchClass_mod.
    replace (n `mod` 12 + 12) with (n `mod` 12 + 1 * 12) by lia.
    rewrite Z.mod_add by lia. rewrite Z.mod_mod by lia. reflexivity. }
  split; [lia|].
  split; [reflexivity|].
  split; [apply octaveOf_floor|].
  split; [apply pitchClass_period | apply octaveOf_period].
Qed.

(** ** The octave marks of [applyAbcOctave] *)

Section OctaveMarks.

Lemma append_mark (out : string) (c : ascii) (tail : string) :
  (out +:+ String c "") +:+ tail = out +:+ String c tail.
Proof.
  induction out as [|a out IH]; [reflexivity|].
  change (String a ((out +:+ String c "") +:+ tail)
          = String a (out +:+ String c tail)).
  f_equal. exact IH.
Qed.

Lemma append_empty (out : string) : out +:+ "" = out.
Proof.
  induction out as [|a out IH]; [reflexivity|].
  change (String a (out +:+ "") = String a out).
  f_equal. exact IH.
Qed.

(** The comma loop runs [4 - i] turns when entered below 4, none
    otherwise. *)
Lemma commaLoop_marks (k : nat) :
  ∀ (i : Z) (out : string),
    Z.to_nat (4 - i) = k → commaLoop i out = out +:+ marks "," k.
Proof.
  induction k as [|k IH]; intros i out Hk; rewrite commaLoop_equation_1.
  - destruct (decide (i < 4)) as [Hlt|_]; [lia|].
    simpl. symmetry. apply append_empty.
  - destruct (decide (i < 4)) as [_|Hge]; [|lia].
    rewrite (IH (i + 1)) by lia.
    simpl. apply append_mark.
Qed.

(** The apostrophe loop runs [i - 5] turns when entered above 5, none
    otherwise. *)
Lemma tickLoop_marks (k : nat) :
  ∀ (i : Z) (out : string),
    Z.to_nat (i - 5) = k → tickLoop i out = out +:+ marks "'" k.
Proof.
  induction k as [|k IH]; intros i out Hk; rewrite tickLoop_equation_1.
  - destruct (decide (i > 5)) as [Hgt|_]; [lia|].
    simpl. symmetry. apply append_empty.
  - destruct (decide (i > 5)) as [_|Hle]; [|lia].
    rewrite (IH (i - 1)) by lia.
    simpl. apply append_mark.
Qed.

Lemma toLowerCase_letterName (l : Letter) :
  JS.toLowerCase (letterName l) = lowerName l.
Proof. destruct l; reflexivity. Qed.

Lemma applyAbcOctave_low (l : Letter) (o : Z) :
  o ≤ 4 → applyAbcOctave l o = letterName l +:+ marks "," (Z.to_nat (4 - o)).
Proof.
  intros Ho. unfold applyAbcOctave.
  rewrite bool_decide_eq_true_2 by exact Ho.
  apply commaLoop_marks. reflexivity.
Qed.

Lemma applyAbcOctave_high (l : Letter) (o : Z) :
  o > 4 → applyAbcOctave l o = lowerName l +:+ marks "'" (Z.to_nat (o - 5)).
Proof.
  intros Ho. unfold applyAbcOctave.
  rewrite bool_decide_eq_false_2 by lia.
  rewrite toLowerCase_letterName.
  apply tickLoop_marks. reflexivity.
Qed.

End OctaveMarks.

(** C6: at an octave [o <= 4] a letter is rendered as its upper-case name
    followed by exactly [4 - o] commas, at an octave [o > 4] as its
    lower-case name followed by exactly [o - 5] apostrophes; the letter C
    gives "C" at octave 4, "C," at octave 3, "c" at octave 5 and "c'" at
    octave 6. *)
Theorem applyAbcOctave_correct (l : Letter) (o : Z) :
  (o ≤ 4 → applyAbcOctave l o = letterName l +:+ marks "," (Z.to_nat (4 - o))) ∧
  (o > 4 → applyAbcOctave l o = lowerName l +:+ marks "'" (Z.to_nat (o - 5))) ∧
  applyAbcOctave LC 4 = "C" ∧
  applyAbcOctave LC 3 = "C," ∧
  applyAbcOctave LC 5 = "c" ∧
  applyAbcOctave LC 6 = "c'".
Proof.
  split; [apply applyAbcOctave_low|].
  split; [apply applyAbcOctave_high|].
  repeat split; vm_compute; reflexivity.
Qed.

(** The two branches of [applyAbcOctave_correct] at octaves 2 and 7. *)
Lemma applyAbcOctave_correct_witness :
  applyAbcOctave LG 2 = "G,," ∧ applyAbcOctave LG 7 = "g''".
Proof.
  destruct (applyAbcOctave_correct LG 2) as (Hlow & _).
  destruct (applyAbcOctave_correct LG 7) as (_ & Hhigh & _).
  split; [apply Hlow; lia | apply Hhigh; lia].
Defined.

(** ** The key model *)

Section KeyModel.

Lemma normalizeKey_keys (k : string) : k ∈ keys → normalizeKey k = k.
Proof.
  unfold keys. rewrite !elem_of_cons, elem_of_nil.
  intros H. repeat (destruct H as [->|H]; [reflexivity|]). destruct H.
Qed.

Lemma preferFlatsInTie_true_iff (x : string) :
  preferFlatsInTie x = true
  ↔ x ∈ ["C"; "F"; "Bb"; "Eb"; "Ab"; "Db"; "Gb"; "Cb"].
Proof.
  unfold preferFlatsInTie.
  case_bool_decide as HC.
  - split; [intros _; subst x; apply list_elem_of_here | reflexivity].
  - split.
    + intros H%bool_decide_eq_true. apply list_elem_of_further. exact H.
    + intros [HC'|H]%elem_of_cons; [contradiction|].
      apply bool_decide_eq_true. exact H.
Qed.

Lemma allNatural_lookup (l : Letter) : allNatural !! l = Some natural.
Proof. destruct l; reflexivity. Qed.

(** A bound read from the prototype stops the loop before its first
    turn. *)
Lemma markLoop_inherited (order : list Letter) (mark : Acc) (i : nat)
    (d : gmap Letter Acc) :
  markLoop order mark JS.Inherited i d = d.
Proof. rewrite markLoop_equation_1. reflexivity. Qed.

(** With a number [n] as bound the loop marks the letters
    [order[i..n-1]] and leaves the others as they were. *)
Lemma markLoop_lookup (order : list Letter) (mark : Acc) (n : nat) (k : nat) :
  ∀ (i : nat) (d : gmap Letter Acc) (l : Letter),
    (n - i)%nat = k →
    markLoop order mark (JS.OwnNumber n) i d !! l
    = if bool_decide (l ∈ take k (drop i order)) then Some mark else d !! l.
Proof.
  induction k as [|k IH]; intros i d l Hk; rewrite markLoop_equation_1.
  - destruct (decide (JS.ltProp i (JS.OwnNumber n))) as [Hlt|_].
    + apply Is_true_true, Nat.ltb_lt in Hlt. lia.
    + rewrite take_0, bool_decide_eq_false_2; [reflexivity|].
      apply not_elem_of_nil.
  - destruct (decide (JS.ltProp i (JS.OwnNumber n))) as [_|Hge].
    2:{ exfalso. apply Hge, Is_true_true, Nat.ltb_lt. lia. }
    rewrite (IH (S i)) by lia.
    destruct (order !! i) as [x|] eqn:Hx.
    + rewrite (drop_S _ _ _ Hx). simpl take.
      destruct (decide (l = x)) as [->|Hne].
      * rewrite (bool_decide_eq_true_2 (x ∈ x :: _)) by apply list_elem_of_here.
        destruct (bool_decide _); [reflexivity|]. apply lookup_insert_eq.
      * rewrite lookup_insert_ne by congruence.
        rewrite (bool_decide_ext (l ∈ x :: take k (drop (S i) order))
                   (l ∈ take k (drop (S i) order))); [reflexivity|].
        rewrite elem_of_cons. tauto.
    + apply lookup_ge_None in Hx.
      rewrite !drop_ge by lia. rewrite !take_nil. reflexivity.
Qed.

Lemma markLoop_is_Some (order : list Letter) (mark : Acc) (n : JS.PropValue)
    (d : gmap Letter Acc) (l : Letter) :
  is_Some (d !! l) → is_Some (markLoop order mark n 0 d !! l).
Proof.
  intros Hd. destruct n as [n|].
  - rewrite (markLoop_lookup order mark n n) by lia.
    destruct (bool_decide _); [eexists; reflexivity | exact Hd].
  - rewrite markLoop_inherited. exact Hd.
Qed.

(** The mapping is total, whatever the key string. *)
Lemma keySignatureDefaults_total (x : string) (l : Letter) :
  is_Some (keySignatureDefaults x !! l).
Proof.
  assert (Hnat : is_Some (allNatural !! l))
    by (rewrite allNatural_lookup; eexists; reflexivity).
  unfold keySignatureDefaults.
  destruct (JS.hasProp keyToSharpsCount x).
  - destruct (JS.getProp keyToSharpsCount x);
      [apply markLoop_is_Some|]; exact Hnat.
  - destruct (JS.hasProp keyToFlatsCount x); [|exact Hnat].
    destruct (JS.getProp keyToFlatsCount x);
      [apply markLoop_is_Some|]; exact Hnat.
Qed.

Lemma keyToSharpsCount_inv (key : string) (N : nat) :
  keyToSharpsCount !! key = Some N →
  (key, N) ∈ [ ("C", 0); ("G", 1); ("D", 2); ("A", 3); ("E", 4); ("B", 5);
               ("F#", 6); ("C#", 7) ]%nat.
Proof. apply elem_of_list_to_map_2. Qed.

Lemma keyToFlatsCount_inv (key : string) (N : nat) :
  keyToFlatsCount !! key = Some N →
  (key, N) ∈ [ ("C", 0); ("F", 1); ("Bb", 2); ("Eb", 3); ("Ab", 4); ("Db", 5);
               ("Gb", 6); ("Cb", 7) ]%nat.
Proof. apply elem_of_list_to_map_2. Qed.

Lemma sharp_key_defaults (key : string) (N : nat) (l : Letter) :
  keyToSharpsCount !! key = Some N →
  keySignatureDefaults key !! l
  = Some (if bool_decide (l ∈ take N sharpsOrder) then sharp else natural).
Proof.
  intros Hkey. unfold keySignatureDefaults, JS.hasProp, JS.getProp.
  rewrite Hkey.
  rewrite (markLoop_lookup sharpsOrder sharp N N) by lia.
  rewrite drop_0, allNatural_lookup.
  destruct (bool_decide _); reflexivity.
Qed.

Lemma flat_key_defaults (key : string) (N : nat) (l : Letter) :
  keyToFlatsCount !! key = Some N →
  keySignatureDefaults key !! l
  = Some (if bool_decide (l ∈ take N flatsOrder) then flat else natural).
Proof.
  intros Hkey.
  destruct (decide (key = "C")) as [->|HC].
  { vm_compute in Hkey. injection Hkey as <-.
    rewrite take_0, bool_decide_eq_false_2 by apply not_elem_of_nil.
    rewrite (sharp_key_defaults "C" 0) by reflexivity.
    rewrite take_0, bool_decide_eq_false_2 by apply not_elem_of_nil.
    reflexivity. }
  assert (Hsharp : JS.getProp keyToSharpsCount key = None).
  { apply keyToFlatsCount_inv in Hkey.
    rewrite !elem_of_cons, elem_of_nil in Hkey.
    repeat (destruct Hkey as [[= -> ->]|Hkey]; [try reflexivity; congruence|]).
    destruct Hkey. }
  unfold keySignatureDefaults, JS.hasProp. rewrite Hsharp.
  unfold JS.getProp. rewrite Hkey.
  rewrite (markLoop_lookup flatsOrder flat N N) by lia.
  rewrite drop_0, allNatural_lookup.
  destruct (bool_decide _); reflexivity.
Qed.

End KeyModel.

(** C4: [preferFlatsInTie] answers true exactly on the key names "C",
    "F", "Bb", "Eb", "Ab", "Db", "Gb" and "Cb", and false on every
    sharp-family key name and on every other string; the formatter calls
    it on the trimmed key. *)
Theorem preferFlatsInTie_correct (x keyName : string) :
  (preferFlatsInTie x = true
   ↔ x ∈ ["C"; "F"; "Bb"; "Eb"; "Ab"; "Db"; "Gb"; "Cb"]) ∧
  (x ∈ ["G"; "D"; "A"; "E"; "B"; "F#"; "C#"] → preferFlatsInTie x = false) ∧
  (x ∉ ["C"; "F"; "Bb"; "Eb"; "Ab"; "Db"; "Gb"; "Cb"]
   → preferFlatsInTie x = false) ∧
  (preferFlatsInTie (normalizeKey keyName) = true
   ↔ normalizeKey keyName ∈ ["C"; "F"; "Bb"; "Eb"; "Ab"; "Db"; "Gb"; "Cb"]).
Proof.
  split; [apply preferFlatsInTie_true_iff|].
  split.
  { rewrite !elem_of_cons, elem_of_nil.
    intros H. repeat (destruct H as [->|H]; [reflexivity|]). destruct H. }
  split; [|apply preferFlatsInTie_true_iff].
  intros Hnot. apply not_true_is_false.
  intros Htrue. apply Hnot, preferFlatsInTie_true_iff, Htrue.
Qed.

(** [preferFlatsInTie_correct] on a flat key given with spaces around it,
    on a sharp key and on a string that is no key name. *)
Lemma preferFlatsInTie_correct_witness :
  preferFlatsInTie (normalizeKey " Bb ") = true ∧
  preferFlatsInTie "F#" = false ∧
  preferFlatsInTie "Am" = false.
Proof.
  destruct (preferFlatsInTie_correct "F#" " Bb ") as (_ & Hsharp & _ & Hflat).
  destruct (preferFlatsInTie_correct "Am" "") as (_ & _ & Hother & _).
  split; [apply Hflat; by_computation|].
  split; [apply Hsharp; by_computation|].
  apply Hother. by_computation.
Defined.

(** C5: [keySignatureDefaults] gives every one of the seven letters an
    accidental, whatever the key string; a sharp key of order [N] (G = 1
    up to C# = 7) has the first [N] letters of F, C, G, D, A, E, B sharp
    and the others natural; a flat key of order [N] (F = 1 up to Cb = 7)
    has the first [N] letters of B, E, A, D, G, C, F flat and the others
    natural. *)
Theorem keySignatureDefaults_correct (x key : string) (N : nat) (l : Letter) :
  is_Some (keySignatureDefaults x !! l) ∧
  (keyToSharpsCount !! key = Some N →
   keySignatureDefaults key !! l
   = Some (if bool_decide (l ∈ take N [LF; LC; LG; LD; LA; LE; LB])
           then sharp else natural)) ∧
  (keyToFlatsCount !! key = Some N →
   keySignatureDefaults key !! l
   = Some (if bool_decide (l ∈ take N [LB; LE; LA; LD; LG; LC; LF])
           then flat else natural)) ∧
  (λ k, keyToSharpsCount !! k) <$> ["G"; "D"; "A"; "E"; "B"; "F#"; "C#"]
  = Some <$> [1; 2; 3; 4; 5; 6; 7]%nat ∧
  (λ k, keyToFlatsCount !! k) <$> ["F"; "Bb"; "Eb"; "Ab"; "Db"; "Gb"; "Cb"]
  = Some <$> [1; 2; 3; 4; 5; 6; 7]%nat.
Proof.
  split; [apply keySignatureDefaults_total|].
  split; [apply sharp_key_defaults|].
  split; [apply flat_key_defaults|].
  split; vm_compute; reflexivity.
Qed.

(** [keySignatureDefaults_correct] on the keys of A (three sharps) and of
    Eb (three flats). *)
Lemma keySignatureDefaults_correct_witness :
  keySignatureDefaults "A" !! LG = Some sharp ∧
  keySignatureDefaults "A" !! LD = Some natural ∧
  keySignatureDefaults "Eb" !! LA = Some flat ∧
  keySignatureDefaults "Eb" !! LD = Some natural.
Proof.
  destruct (keySignatureDefaults_correct "" "A" 3 LG) as (_ & HG & _).
  destruct (keySignatureDefaults_correct "" "A" 3 LD) as (_ & HD & _).
  destruct (keySignatureDefaults_correct "" "Eb" 3 LA) as (_ & _ & HA & _).
  destruct (keySignatureDefaults_correct "" "Eb" 3 LD) as (_ & _ & HD' & _).
  split; [apply HG; reflexivity|].
  split; [apply HD; reflexivity|].
  split; [apply HA; reflexivity | apply HD'; reflexivity].
Defined.

(** ** The spelling selector and the renderer *)

Section Selector.

Lemma Zrange_elem (lo : Z) (len : nat) (z : Z) :
  lo ≤ z < lo + Z.of_nat len → z ∈ Zrange lo len.
Proof.
  intros Hz. unfold Zrange. apply list_elem_of_fmap.
  exists (Z.to_nat (z - lo)). split; [lia|].
  apply elem_of_seq. lia.
Qed.

(** A property checked on every pitch class holds of the pitch class of
    any note. *)
Lemma pitchClass_Forall (P : Z → Prop) (n : Z) :
  Forall P (Zrange 0 12) → P (pitchClass n).
Proof.
  intros Hall. pose proof (pitchClass_range n) as Hr.
  refine (proj1 (Forall_forall _ _) Hall _ _).
  apply Zrange_elem. lia.
Qed.

Lemma format_spell (n : Z) (sep key : string) :
  ABCFormatter_format n sep key
  = render (octaveOf n)
      <$> spell (pitchClass n) (keySignatureDefaults (normalizeKey key))
            (preferFlatsInTie (normalizeKey key)).
Proof.
  unfold ABCFormatter_format, spell, render, candidatesOf.
  destruct (selectBest _ _ _); reflexivity.
Qed.

Lemma accidentalPrefix_empty_iff (a : Acc) (d : option Acc) :
  accidentalPrefix a d = "" ↔ d = Some a.
Proof.
  unfold accidentalPrefix. case_bool_decide as Hd.
  - split; [intros _; symmetry; exact Hd | reflexivity].
  - split; [|intros ->; contradiction].
    destruct a; simpl; discriminate.
Qed.

Lemma accidentalPrefix_glyph (a : Acc) (d : option Acc) :
  d ≠ Some a → accidentalPrefix a d = accGlyph a.
Proof.
  intros Hd. unfold accidentalPrefix.
  rewrite bool_decide_eq_false_2 by congruence.
  destruct a; reflexivity.
Qed.

(** The loop keeps [best] among the candidates. *)
Lemma selectStep_best (d : gmap Letter Acc) (p : bool) (st : Selection)
    (cand : Spelling) :
  best (selectStep d p st cand) = best st ∨ best (selectStep d p st cand) = cand.
Proof.
  unfold selectStep.
  repeat match goal with
         | |- context [if ?b then _ else _] => destruct b
         end; simpl; auto.
Qed.

Lemma foldl_selectStep_best (d : gmap Letter Acc) (p : bool)
    (cands : list Spelling) :
  ∀ st, best (foldl (selectStep d p) st cands) = best st
        ∨ best (foldl (selectStep d p) st cands) ∈ cands.
Proof.
  induction cands as [|c cands IH]; intros st; simpl; [left; reflexivity|].
  destruct (IH (selectStep d p st c)) as [Heq|Hin].
  - rewrite Heq. destruct (selectStep_best d p st c) as [->| ->];
      [left; reflexivity | right; apply list_elem_of_here].
  - right. apply list_elem_of_further. exact Hin.
Qed.

(** The selector answers, and with one of the candidates, as soon as
    there is a candidate. *)
Lemma selectBest_elem (cands : list Spelling) (d : gmap Letter Acc) (p : bool) :
  cands ≠ [] → ∃ b, selectBest cands d p = Some b ∧ b ∈ cands.
Proof.
  intros Hne. destruct cands as [|c cands]; [contradiction|].
  unfold selectBest. simpl lookup. eexists. split; [reflexivity|].
  destruct (foldl_selectStep_best d p (c :: cands) (mkSelection c 999))
    as [->|Hin]; [apply list_elem_of_here | exact Hin].
Qed.

(** Every pitch class, and every other number too, has candidates. *)
Lemma candidatesOf_nonempty (pc : Z) : candidatesOf pc ≠ [].
Proof.
  unfold candidatesOf. destruct (candMap !! pc) as [cs|] eqn:Hpc; [|discriminate].
  apply elem_of_list_to_map_2 in Hpc. simpl.
  rewrite !elem_of_cons, elem_of_nil in Hpc.
  repeat (destruct Hpc as [[= -> ->]|Hpc]; [discriminate|]). destruct Hpc.
Qed.

(** No call of the key-aware formatter throws. *)
Lemma ABCFormatter_format_total (n : Z) (sep key : string) :
  is_Some (ABCFormatter_format n sep key).
Proof.
  rewrite format_spell. unfold spell.
  destruct (selectBest_elem (candidatesOf (pitchClass n))
              (keySignatureDefaults (normalizeKey key))
              (preferFlatsInTie (normalizeKey key))
              (candidatesOf_nonempty _)) as (b & -> & _).
  eexists. reflexivity.
Qed.

End Selector.

(** ** Keys that are not among the supported names *)

Section UnrecognizedKey.

Variable x : string.
Hypothesis unrecognized : x ∉ keys.

Lemma unrecognized_ne (k : string) : k ∈ keys → x ≠ k.
Proof. intros Hk ->. exact (unrecognized Hk). Qed.

Lemma unrecognized_sharps : keyToSharpsCount !! x = None.
Proof.
  apply not_elem_of_list_to_map_1. simpl.
  rewrite !not_elem_of_cons.
  repeat split; try apply not_elem_of_nil; apply unrecognized_ne; by_computation.
Qed.

Lemma unrecognized_flats : keyToFlatsCount !! x = None.
Proof.
  apply not_elem_of_list_to_map_1. simpl.
  rewrite !not_elem_of_cons.
  repeat split; try apply not_elem_of_nil; apply unrecognized_ne; by_computation.
Qed.

(** The defaults stay all natural, also when the key is a name that
    [in] finds on the prototype. *)
Lemma unrecognized_defaults : keySignatureDefaults x = allNatural.
Proof.
  unfold keySignatureDefaults, JS.hasProp, JS.getProp.
  rewrite unrecognized_sharps, unrecognized_flats.
  destruct (bool_decide (x ∈ JS.objectPrototypeKeys));
    [apply markLoop_inherited | reflexivity].
Qed.

Lemma unrecognized_preferFlats : preferFlatsInTie x = false.
Proof.
  apply not_true_is_false. intros Htrue.
  apply preferFlatsInTie_true_iff in Htrue. apply unrecognized.
  revert Htrue. unfold keys. rewrite !elem_of_cons, !elem_of_nil. tauto.
Qed.

End UnrecognizedKey.

(** What the formatter writes for each pitch class against all-natural
    defaults: on a white key the tie-break preference plays no part; on a
    black key a preference for sharps gives "^" with the letter of the
    first candidate, a preference for flats "_" with the letter of the
    last. *)
Lemma spell_allNatural :
  Forall (λ z,
    (z ∈ whiteClasses ∨ z ∈ blackClasses) ∧
    (z ∈ whiteClasses → z ∉ blackClasses) ∧
    (z ∈ whiteClasses → spell z allNatural false = spell z allNatural true) ∧
    (z ∈ blackClasses →
     spell z allNatural false
     = (λ c, ("^", letter c)) <$> head (candidatesOf z) ∧
     spell z allNatural true
     = (λ c, ("_", letter c)) <$> last (candidatesOf z)))
    (Zrange 0 12).
Proof. by_computation. Qed.

Lemma keySignatureDefaults_C : keySignatureDefaults "C" = allNatural.
Proof.
  vm_compute. reflexivity.
Qed.

(** Within [0, 11] the candidates come from the table, not from the
    fallback of line 51. *)
Lemma candMap_candidatesOf (pc : Z) :
  0 ≤ pc ≤ 11 → candMap !! pc = Some (candidatesOf pc).
Proof.
  intros Hpc.
  assert (Htable : Forall (λ z, candMap !! z = Some (candidatesOf z)) (Zrange 0 12))
    by by_computation.
  refine (proj1 (Forall_forall _ _) Htable _ _).
  apply Zrange_elem. lia.
Qed.

Lemma head_candidatesOf (pc : Z) : is_Some (head (candidatesOf pc)).
Proof.
  pose proof (candidatesOf_nonempty pc) as Hne.
  destruct (candidatesOf pc); [contradiction | eexists; reflexivity].
Qed.

Lemma last_candidatesOf (pc : Z) : is_Some (last (candidatesOf pc)).
Proof.
  apply last_is_Some, candidatesOf_nonempty.
Qed.

(** C1 as stated, refuted: "Am" is no supported key name, and for the
    note 61 the formatter writes "^C" under "Am" but "_D" under "C". *)
Lemma unrecognized_key_not_as_C :
  normalizeKey "Am" = "Am" ∧
  bool_decide ("Am" ∈ keys) = false ∧
  ABCFormatter_format 61 "" "Am" = Some "^C" ∧
  ABCFormatter_format 61 "" "C" = Some "_D".
Proof. repeat split; vm_compute; reflexivity. Qed.

(** C1, amended: a key string whose trimmed form is none of the fifteen
    supported names gets the all-natural defaults of key "C" but, unlike
    "C", prefers sharps on a tie. The output is that of key "C" exactly
    when the pitch class is one of 0, 2, 4, 5, 7, 9, 11; on the pitch
    classes 1, 3, 6, 8, 10 it is "^" with the letter of the first
    candidate, where key "C" gives "_" with the letter of the last. *)
Theorem unrecognized_key_format (n : Z) (sep s : string) :
  normalizeKey s ∉ keys →
  keySignatureDefaults (normalizeKey s) = keySignatureDefaults "C" ∧
  preferFlatsInTie (normalizeKey s) = false ∧
  preferFlatsInTie "C" = true ∧
  (ABCFormatter_format n sep s = ABCFormatter_format n sep "C"
   ↔ pitchClass n ∈ whiteClasses) ∧
  (pitchClass n ∈ blackClasses →
   ABCFormatter_format n sep s
   = (λ c, "^" +:+ applyAbcOctave (letter c) (octaveOf n))
       <$> head (candidatesOf (pitchClass n)) ∧
   ABCFormatter_format n sep "C"
   = (λ c, "_" +:+ applyAbcOctave (letter c) (octaveOf n))
       <$> last (candidatesOf (pitchClass n))).
Proof.
  intros Hkey.
  pose proof (unrecognized_defaults _ Hkey) as Hdef.
  pose proof (unrecognized_preferFlats _ Hkey) as Hpref.
  assert (HfmtS : ABCFormatter_format n sep s
                  = render (octaveOf n) <$> spell (pitchClass n) allNatural false).
  { rewrite format_spell, Hdef, Hpref. reflexivity. }
  assert (HfmtC : ABCFormatter_format n sep "C"
                  = render (octaveOf n) <$> spell (pitchClass n) allNatural true).
  { rewrite format_spell.
    change (normalizeKey "C") with "C". rewrite keySignatureDefaults_C.
    reflexivity. }
  destruct (pitchClass_Forall _ n spell_allNatural)
    as (Hcolour & Hexcl & Hwhite & Hblack).
  assert (Hblack' : pitchClass n ∈ blackClasses →
            ABCFormatter_format n sep s
            = (λ c, "^" +:+ applyAbcOctave (letter c) (octaveOf n))
                <$> head (candidatesOf (pitchClass n)) ∧
            ABCFormatter_format n sep "C"
            = (λ c, "_" +:+ applyAbcOctave (letter c) (octaveOf n))
                <$> last (candidatesOf (pitchClass n))).
  { intros Hb. destruct (Hblack Hb) as [Hs HC].
    rewrite HfmtS, HfmtC, Hs, HC.
    destruct (head _), (last _); split; reflexivity. }
  split; [rewrite keySignatureDefaults_C; exact Hdef|].
  split; [exact Hpref|].
  split; [reflexivity|].
  split; [|exact Hblack'].
  split.
  - intros Heq. destruct Hcolour as [Hw|Hb]; [exact Hw|].
    exfalso. destruct (Hblack' Hb) as [Hs HC].
    rewrite Hs, HC in Heq.
    destruct (head_candidatesOf (pitchClass n)) as [c1 Hc1].
    destruct (last_candidatesOf (pitchClass n)) as [c2 Hc2].
    rewrite Hc1, Hc2 in Heq. discriminate Heq.
  - intros Hw. rewrite HfmtS, HfmtC, (Hwhite Hw). reflexivity.
Qed.

(** [unrecognized_key_format] on the key "Am" and the notes 61 (a black
    key) and 62 (a white key). *)
Lemma unrecognized_key_format_witness :
  (normalizeKey "Am" ∉ keys) ∧
  ABCFormatter_format 61 "" "Am" = Some "^C" ∧
  ABCFormatter_format 61 "" "C" = Some "_D" ∧
  ABCFormatter_format 62 "" "Am" = ABCFormatter_format 62 "" "C".
Proof.
  assert (Hkey : normalizeKey "Am" ∉ keys) by by_computation.
  destruct (unrecognized_key_format 61 "" "Am" Hkey) as (_ & _ & _ & _ & Hblack).
  destruct (unrecognized_key_format 62 "" "Am" Hkey) as (_ & _ & _ & Hwhite & _).
  destruct Hblack as [Hs HC]; [by_computation|].
  split; [exact Hkey|].
  split; [exact Hs|]. split; [exact HC|].
  apply Hwhite. by_computation.
Defined.

(** C2: the note 61 under key "C" is written "_D". Its pitch class is 1
    and its octave 4; the candidates C sharp and D flat both cost 1 against
    the all-natural defaults of "C"; "C" prefers flats, so the tie goes to
    D flat; D is natural by default, so the flat glyph is written; octave 4
    adds no mark. *)
Theorem format_61_key_C (sep : string) :
  ABCFormatter_format 61 sep "C" = Some "_D" ∧
  ABCFormatter_format_default 61 sep = Some "_D" ∧
  pitchClass 61 = 1 ∧
  octaveOf 61 = 4 ∧
  candidatesOf 1 = [mkSpelling LC sharp; mkSpelling LD flat] ∧
  candCost (keySignatureDefaults "C") (mkSpelling LC sharp) = 1 ∧
  candCost (keySignatureDefaults "C") (mkSpelling LD flat) = 1 ∧
  preferFlatsInTie "C" = true ∧
  selection 1 "C" = Some (mkSpelling LD flat) ∧
  keySignatureDefaults "C" !! LD = Some natural ∧
  accidentalPrefix flat (keySignatureDefaults "C" !! LD) = "_" ∧
  applyAbcOctave LD 4 = "D".
Proof. repeat split; vm_compute; reflexivity. Qed.

(** C3: the note 61 under key "D" is written "C". Key "D" has F and C
    sharp, so the candidate C sharp costs 0 and D flat costs 1; C sharp
    wins on cost, and since the key already implies its sharp no glyph is
    written. *)
Theorem format_61_key_D (sep : string) :
  ABCFormatter_format 61 sep "D" = Some "C" ∧
  keySignatureDefaults "D" !! LF = Some sharp ∧
  keySignatureDefaults "D" !! LC = Some sharp ∧
  keySignatureDefaults "D" !! LD = Some natural ∧
  keySignatureDefaults "D" = <[LC := sharp]> (<[LF := sharp]> allNatural) ∧
  candCost (keySignatureDefaults "D") (mkSpelling LC sharp) = 0 ∧
  candCost (keySignatureDefaults "D") (mkSpelling LD flat) = 1 ∧
  selection 1 "D" = Some (mkSpelling LC sharp) ∧
  accidentalPrefix sharp (keySignatureDefaults "D" !! LC) = "" ∧
  applyAbcOctave LC 4 = "C".
Proof. repeat split; vm_compute; reflexivity. Qed.

(** C8: for each of the fifteen supported key names and each pitch class
    in [0, 11], the selector picks one of the candidates, and the glyph
    the renderer writes before the letter is empty exactly when the
    accidental of that spelling is the key's default for its letter;
    otherwise the glyph is "^" for a sharp, "_" for a flat and "=" for a
    natural. *)
Theorem glyph_empty_iff_default (key : string) (pc : Z) :
  key ∈ keys →
  0 ≤ pc ≤ 11 →
  ∃ cands b glyph,
    candMap !! pc = Some cands ∧
    selection pc key = Some b ∧
    b ∈ cands ∧
    glyph = accidentalPrefix (acc b) (keySignatureDefaults key !! letter b) ∧
    (glyph = "" ↔ keySignatureDefaults key !! letter b = Some (acc b)) ∧
    (keySignatureDefaults key !! letter b ≠ Some (acc b) → glyph = accGlyph (acc b)) ∧
    (∀ (n : Z) (sep : string),
       pitchClass n = pc →
       ABCFormatter_format n sep key
       = Some (glyph +:+ applyAbcOctave (letter b) (octaveOf n))).
Proof.
  intros Hkey Hpc.
  destruct (selectBest_elem (candidatesOf pc) (keySignatureDefaults key)
              (preferFlatsInTie key) (candidatesOf_nonempty pc))
    as (b & Hsel & Hin).
  exists (candidatesOf pc), b,
    (accidentalPrefix (acc b) (keySignatureDefaults key !! letter b)).
  split; [apply candMap_candidatesOf; exact Hpc|].
  split; [exact Hsel|].
  split; [exact Hin|].
  split; [reflexivity|].
  split; [apply accidentalPrefix_empty_iff|].
  split; [apply accidentalPrefix_glyph|].
  intros n sep <-.
  rewrite format_spell, (normalizeKey_keys key Hkey).
  unfold spell. rewrite Hsel. reflexivity.
Qed.

(** [glyph_empty_iff_default] on key "D" and pitch class 1. *)
Lemma glyph_empty_iff_default_witness :
  "D" ∈ keys ∧
  0 ≤ 1 ≤ 11 ∧
  ∃ cands b glyph,
    candMap !! 1 = Some cands ∧
    selection 1 "D" = Some b ∧
    b ∈ cands ∧
    glyph = accidentalPrefix (acc b) (keySignatureDefaults "D" !! letter b) ∧
    (glyph = "" ↔ keySignatureDefaults "D" !! letter b = Some (acc b)) ∧
    (keySignatureDefaults "D" !! letter b ≠ Some (acc b) → glyph = accGlyph (acc b)) ∧
    (∀ (n : Z) (sep : string),
       pitchClass n = 1 →
       ABCFormatter_format n sep "D"
       = Some (glyph +:+ applyAbcOctave (letter b) (octaveOf n))).
Proof.
  assert (Hkey : "D" ∈ keys) by by_computation.
  assert (Hpc : 0 ≤ 1 ≤ 11) by lia.
  split; [exact Hkey|]. split; [exact Hpc|].
  exact (glyph_empty_iff_default "D" 1 Hkey Hpc).
Defined.

(** C9: for a note number [n] in [0, 127], the raw formatter writes the
    decimal digits of [n] and then the separator; the scientific formatter
    writes the name of the pitch class [n mod 12] from the twelve-entry
    table, the decimal octave [floor(n / 12) - 1] and then the separator.
    So the raw format of 64 with "-" is "64-" and the scientific format of
    64 with "," is "E4,". *)
Theorem raw_and_scientific_correct (n : Z) (sep : string) :
  0 ≤ n ≤ 127 →
  rawFormatter_format n sep = JS.numberToString n +:+ sep ∧
  decimalValue (JS.numberToString n) = Some n ∧
  (∃ name,
     noteNames !! Z.to_nat (n `mod` 12) = Some name ∧
     scientificFormatter_format n sep
     = name +:+ JS.numberToString (n `div` 12 - 1) +:+ sep) ∧
  decimalValue (JS.numberToString (n `div` 12 - 1)) = Some (n `div` 12 - 1) ∧
  rawFormatter_format 64 "-" = "64-" ∧
  scientificFormatter_format 64 "," = "E4,".
Proof.
  intros Hn.
  assert (Hdigits : Forall (λ z, decimalValue (JS.numberToString z) = Some z)
                      (Zrange (-1) 129)) by by_computation.
  assert (Hlookup := λ z Hz, proj1 (Forall_forall _ _) Hdigits z
                               (Zrange_elem (-1) 129 z Hz)).
  split; [reflexivity|].
  split; [apply Hlookup; lia|].
  split.
  - pose proof (Z.mod_pos_bound n 12) as Hmod.
    destruct (lookup_lt_is_Some_2 noteNames (Z.to_nat (n `mod` 12)))
      as [name Hname]; [simpl; lia|].
    exists name. split; [exact Hname|].
    unfold scientificFormatter_format, JS.index.
    rewrite Z.rem_mod_nonneg by lia.
    destruct (Z.ltb_spec (n `mod` 12) 0) as [Hneg|_]; [lia|].
    rewrite Hname. reflexivity.
  - split.
    + apply Hlookup.
      pose proof (Z.div_mod n 12) as Hdiv.
      pose proof (Z.mod_pos_bound n 12) as Hmod. lia.
    + split; vm_compute; reflexivity.
Qed.

(** [raw_and_scientific_correct] on the highest note number. *)
Lemma raw_and_scientific_correct_witness :
  0 ≤ 127 ≤ 127 ∧
  rawFormatter_format 127 ";" = "127;" ∧
  scientificFormatter_format 127 ";" = "G9;".
Proof.
  assert (Hn : 0 ≤ 127 ≤ 127) by lia.
  destruct (raw_and_scientific_correct 127 ";" Hn) as (Hraw & _ & Hsci & _).
  split; [exact Hn|].
  split; [exact Hraw|].
  destruct Hsci as (name & Hname & Hfmt).
  rewrite Hfmt. injection Hname as <-. reflexivity.
Defined.

(** C10: the key-aware formatter does not look at its separator argument.
    Two calls that differ in the separator alone give the same string, so
    does [writeNoteToEditor] in ABC mode under two separator settings.
    The string is the accidental glyph followed by the letter with its
    octave marks and nothing else, so the separator occurs in it only
    where the note text has it: whether it occurs is the same under any
    other separator, and a comma in the output is an octave mark. *)
Theorem ABCFormatter_ignores_separator (n : Z) (key s1 s2 : string) :
  ABCFormatter_format n s1 key = ABCFormatter_format n s2 key ∧
  noteString (mkSettings ABC s1) key n = noteString (mkSettings ABC s2) key n ∧
  occursIn s1 <$> ABCFormatter_format n s1 key
  = occursIn s1 <$> ABCFormatter_format n s2 key ∧
  (∃ b,
     b ∈ candidatesOf (pitchClass n) ∧
     ABCFormatter_format n s1 key
     = Some (accidentalPrefix (acc b)
               (keySignatureDefaults (normalizeKey key) !! letter b)
             +:+ applyAbcOctave (letter b) (octaveOf n))) ∧
  ABCFormatter_format 60 "," "C" = Some "C" ∧
  occursIn "," "C" = false ∧
  ABCFormatter_format 48 "," "C" = Some "C," ∧
  ABCFormatter_format 48 "-" "C" = Some "C,".
Proof.
  split; [reflexivity|].
  split; [reflexivity|].
  split; [reflexivity|].
  split.
  - destruct (selectBest_elem (candidatesOf (pitchClass n))
                (keySignatureDefaults (normalizeKey key))
                (preferFlatsInTie (normalizeKey key))
                (candidatesOf_nonempty _)) as (b & Hsel & Hin).
    exists b. split; [exact Hin|].
    rewrite format_spell. unfold spell. rewrite Hsel. reflexivity.
  - repeat split; vm_compute; reflexivity.
Qed.

(** ** The selection loop on any list of candidates *)

Section SelectionLoop.

Variable keyDefaults : gmap Letter Acc.
Variable preferFlats : bool.

Lemma candCost_cases (c : Spelling) :
  candCost keyDefaults c = 0 ∨ candCost keyDefaults c = 1.
Proof. unfold candCost. destruct (bool_decide _); simpl; auto. Qed.

(** The first turn always takes the first candidate: no cost reaches 999. *)
Lemma loopInvariant_first (first c : Spelling) :
  loopInvariant keyDefaults preferFlats [c]
    (selectStep keyDefaults preferFlats (mkSelection first 999) c).
Proof.
  unfold selectStep. simpl bestCost.
  rewrite bool_decide_eq_true_2
    by (destruct (candCost_cases c) as [-> | ->]; lia).
  repeat split; simpl.
  - intros c' ->%list_elem_of_singleton. lia.
  - intros c' ->%list_elem_of_singleton Hacc _. exact Hacc.
  - exists 0%nat. split; [reflexivity|]. intros j c' Hj. lia.
Qed.

(** Every later turn keeps the invariant. *)
Lemma loopInvariant_step (seen : list Spelling) (st : Selection) (c : Spelling) :
  loopInvariant keyDefaults preferFlats seen st →
  loopInvariant keyDefaults preferFlats (seen ++ [c])
    (selectStep keyDefaults preferFlats st c).
Proof.
  intros (Hcost & Hmin & Hpref & i & Hi & Hbefore).
  assert (Hlen : (i < length seen)%nat) by (eapply lookup_lt_Some; exact Hi).
  assert (Hseen : ∀ (j : nat) (c' : Spelling), (j < length seen)%nat →
            (seen ++ [c])%list !! j = Some c' → seen !! j = Some c').
  { intros j c' Hj. rewrite lookup_app_l by exact Hj. auto. }
  assert (Hnew : (seen ++ [c])%list !! length seen = Some c).
  { rewrite lookup_app_r by lia. rewrite Nat.sub_diag. reflexivity. }
  assert (Htied : ∀ c', c' ∈ seen → acc (best st) ≠ preferred preferFlats →
            bestCost st < candCost keyDefaults c' ∨ acc c' ≠ preferred preferFlats).
  { intros c' Hc' Hbest.
    destruct (decide (acc c' = preferred preferFlats)) as [Hacc|Hacc]; [|right; exact Hacc].
    left. pose proof (Hmin c' Hc') as Hle.
    destruct (decide (candCost keyDefaults c' = bestCost st)) as [Heq|Hne]; [|lia].
    exfalso. apply Hbest, (Hpref c' Hc' Hacc Heq). }
  (* the state is kept *)
  assert (Hkeep : bestCost st ≤ candCost keyDefaults c →
            (acc c = preferred preferFlats →
             candCost keyDefaults c = bestCost st →
             acc (best st) = preferred preferFlats) →
            loopInvariant keyDefaults preferFlats (seen ++ [c]) st).
  { intros Hle Hc. split; [exact Hcost|]. split; [|split].
    - intros c' [Hc'| ->%list_elem_of_singleton]%elem_of_app; [apply Hmin, Hc' | exact Hle].
    - intros c' [Hc'| ->%list_elem_of_singleton]%elem_of_app; [apply Hpref, Hc' | exact Hc].
    - exists i. split; [rewrite lookup_app_l by exact Hlen; exact Hi|].
      intros j c' Hj Hjc. apply (Hbefore j c' Hj), Hseen; [lia | exact Hjc]. }
  (* the candidate is taken *)
  assert (Htake : ∀ cost', cost' = candCost keyDefaults c → cost' ≤ bestCost st →
            (cost' = bestCost st →
             acc c = preferred preferFlats ∧ acc (best st) ≠ preferred preferFlats) →
            loopInvariant keyDefaults preferFlats (seen ++ [c]) (mkSelection c cost')).
  { intros cost' -> Hle Htie. split; [reflexivity|]. simpl. split; [|split].
    - intros c' [Hc'| ->%list_elem_of_singleton]%elem_of_app; [|lia].
      pose proof (Hmin c' Hc'). lia.
    - intros c' [Hc'| ->%list_elem_of_singleton]%elem_of_app Hacc Heq; [|exact Hacc].
      pose proof (Hmin c' Hc') as Hge.
      destruct (Htie ltac:(lia)) as [Hc _]. exact Hc.
    - exists (length seen). split; [exact Hnew|].
      intros j c' Hj Hjc. apply Hseen in Hjc; [|exact Hj].
      assert (Hc' : c' ∈ seen) by (eapply list_elem_of_lookup_2; exact Hjc).
      pose proof (Hmin c' Hc') as Hge.
      destruct (decide (candCost keyDefaults c = bestCost st)) as [Heq|Hne]; [|left; lia].
      destruct (Htie Heq) as [Hc Hbest].
      destruct (Htied c' Hc' Hbest) as [Hlt|Hacc]; [left; lia | right; auto]. }
  unfold selectStep.
  case_bool_decide as Hlt; [apply Htake; [reflexivity | lia | lia]|].
  case_bool_decide as Heq; [|apply Hkeep; [lia | intros _ Habs; congruence]].
  destruct preferFlats; simpl in *.
  - destruct (acc c) eqn:Hc, (acc (best st)) eqn:Hb; simpl;
      first [ apply Hkeep; [lia | intros; congruence]
            | rewrite <- Heq; apply Htake; [reflexivity | lia | split; congruence] ].
  - destruct (acc c) eqn:Hc, (acc (best st)) eqn:Hb; simpl;
      first [ apply Hkeep; [lia | intros; congruence]
            | rewrite <- Heq; apply Htake; [reflexivity | lia | split; congruence] ].
Qed.

Lemma loopInvariant_foldl (rest : list Spelling) :
  ∀ (seen : list Spelling) (st : Selection),
    loopInvariant keyDefaults preferFlats seen st →
    loopInvariant keyDefaults preferFlats (seen ++ rest)
      (foldl (selectStep keyDefaults preferFlats) st rest).
Proof.
  induction rest as [|c rest IH]; intros seen st Hinv; simpl.
  - rewrite app_nil_r. exact Hinv.
  - rewrite (cons_middle c seen rest), app_assoc.
    apply IH, loopInvariant_step, Hinv.
Qed.

(** The loop ends with the invariant on the whole list. *)
Lemma selectBest_loopInvariant (cands : list Spelling) (b : Spelling) :
  selectBest cands keyDefaults preferFlats = Some b →
  ∃ st, best st = b ∧ loopInvariant keyDefaults preferFlats cands st.
Proof.
  unfold selectBest. destruct cands as [|c rest]; [discriminate|].
  simpl. intros [= <-]. eexists. split; [reflexivity|].
  apply (loopInvariant_foldl rest [c]), loopInvariant_first.
Qed.

End SelectionLoop.

Lemma selectBest_minimal_cost_aux (cands : list Spelling)
    (keyDefaults : gmap Letter Acc) (preferFlats : bool) (b : Spelling) :
  selectBest cands keyDefaults preferFlats = Some b →
  ∀ c, c ∈ cands → candCost keyDefaults b ≤ candCost keyDefaults c.
Proof.
  intros (st & <- & Hcost & Hmin & _)%selectBest_loopInvariant c Hc.
  rewrite <- Hcost. apply Hmin, Hc.
Qed.

(** X1: on any list of candidates, the spelling the loop ends with is one
    of them and none of them costs less. *)
Theorem selectBest_minimal_cost (cands : list Spelling)
    (keyDefaults : gmap Letter Acc) (preferFlats : bool) (b : Spelling) :
  selectBest cands keyDefaults preferFlats = Some b →
  b ∈ cands ∧ ∀ c, c ∈ cands → candCost keyDefaults b ≤ candCost keyDefaults c.
Proof.
  intros (st & <- & Hcost & Hmin & _ & i & Hi & _)%selectBest_loopInvariant.
  split; [eapply list_elem_of_lookup_2; exact Hi|].
  intros c Hc. rewrite <- Hcost. apply Hmin, Hc.
Qed.

(** [selectBest_minimal_cost] on three candidates of which only the last
    is implied by the key of Ab. *)
Lemma selectBest_minimal_cost_witness :
  selectBest [mkSpelling LC sharp; mkSpelling LD natural; mkSpelling LD flat]
    (keySignatureDefaults "Ab") true = Some (mkSpelling LD flat) ∧
  mkSpelling LD flat
  ∈ [mkSpelling LC sharp; mkSpelling LD natural; mkSpelling LD flat] ∧
  ∀ c, c ∈ [mkSpelling LC sharp; mkSpelling LD natural; mkSpelling LD flat] →
       candCost (keySignatureDefaults "Ab") (mkSpelling LD flat)
       ≤ candCost (keySignatureDefaults "Ab") c.
Proof.
  assert (Hsel : selectBest
                   [mkSpelling LC sharp; mkSpelling LD natural; mkSpelling LD flat]
                   (keySignatureDefaults "Ab") true = Some (mkSpelling LD flat))
    by (vm_compute; reflexivity).
  split; [exact Hsel|].
  exact (selectBest_minimal_cost _ _ _ _ Hsel).
Defined.

(** X2: when a candidate with the preferred accidental (flat if
    [preferFlats], sharp otherwise) costs as little as the chosen spelling,
    the chosen spelling has the preferred accidental too. *)
Theorem selectBest_tie_break (cands : list Spelling)
    (keyDefaults : gmap Letter Acc) (preferFlats : bool) (b c : Spelling) :
  selectBest cands keyDefaults preferFlats = Some b →
  c ∈ cands →
  acc c = preferred preferFlats →
  candCost keyDefaults c = candCost keyDefaults b →
  acc b = preferred preferFlats.
Proof.
  intros (st & <- & Hcost & _ & Hpref & _)%selectBest_loopInvariant Hc Hacc Heq.
  apply (Hpref c Hc Hacc). rewrite Hcost. exact Heq.
Qed.

(** [selectBest_tie_break] on the two spellings of pitch class 1 against
    all-natural defaults, flats preferred. *)
Lemma selectBest_tie_break_witness :
  selectBest [mkSpelling LC sharp; mkSpelling LD flat] allNatural true
  = Some (mkSpelling LD flat) ∧
  acc (mkSpelling LD flat) = preferred true.
Proof.
  assert (Hsel : selectBest [mkSpelling LC sharp; mkSpelling LD flat]
                   allNatural true = Some (mkSpelling LD flat))
    by (vm_compute; reflexivity).
  split; [exact Hsel|].
  apply (selectBest_tie_break _ _ _ _ (mkSpelling LD flat) Hsel);
    [by_computation | reflexivity | reflexivity].
Defined.

(** X3: the chosen spelling is the earliest of its kind: every candidate
    before it in the list costs more, or lacks the preferred accidental
    that the chosen spelling has. *)
Theorem selectBest_earliest (cands : list Spelling)
    (keyDefaults : gmap Letter Acc) (preferFlats : bool) (b : Spelling) :
  selectBest cands keyDefaults preferFlats = Some b →
  ∃ i : nat,
    cands !! i = Some b ∧
    ∀ (j : nat) c, (j < i)%nat → cands !! j = Some c →
      candCost keyDefaults b < candCost keyDefaults c
      ∨ (acc b = preferred preferFlats ∧ acc c ≠ preferred preferFlats).
Proof.
  intros (st & <- & Hcost & _ & _ & i & Hi & Hbefore)%selectBest_loopInvariant.
  exists i. split; [exact Hi|].
  intros j c Hj Hjc. rewrite <- Hcost. exact (Hbefore j c Hj Hjc).
Qed.

(** [selectBest_earliest] on two equally cheap naturals: the first stays. *)
Lemma selectBest_earliest_witness :
  selectBest [mkSpelling LE natural; mkSpelling LF natural] allNatural false
  = Some (mkSpelling LE natural) ∧
  ∃ i : nat,
    [mkSpelling LE natural; mkSpelling LF natural] !! i
    = Some (mkSpelling LE natural) ∧
    ∀ (j : nat) c, (j < i)%nat →
      [mkSpelling LE natural; mkSpelling LF natural] !! j = Some c →
      candCost allNatural (mkSpelling LE natural) < candCost allNatural c
      ∨ (acc (mkSpelling LE natural) = preferred false ∧ acc c ≠ preferred false).
Proof.
  assert (Hsel : selectBest [mkSpelling LE natural; mkSpelling LF natural]
                   allNatural false = Some (mkSpelling LE natural))
    by (vm_compute; reflexivity).
  split; [exact Hsel|].
  exact (selectBest_earliest _ _ _ _ Hsel).
Defined.

(** ** What the written note denotes *)

Section Reading.

(** Each candidate of a pitch class denotes that pitch class. *)
Lemma candidates_sound :
  Forall (λ z, Forall (λ c, semitone (letter c) + accOffset (acc c) = z)
                 (candidatesOf z))
    (Zrange 0 12).
Proof. by_computation. Qed.

Lemma note_decomposition (n : Z) : n = 12 * (octaveOf n + 1) + pitchClass n.
Proof.
  rewrite pitchClass_mod. unfold octaveOf.
  pose proof (Z.div_mod n 12) as Hdiv. lia.
Qed.

Lemma candidate_pitch (n : Z) (c : Spelling) :
  c ∈ candidatesOf (pitchClass n) → spellingPitch (octaveOf n) c = n.
Proof.
  intros Hc.
  pose proof (pitchClass_Forall _ n candidates_sound) as Hsound.
  pose proof (proj1 (Forall_forall _ _) Hsound c Hc) as Hpc.
  cbv beta in Hpc.
  unfold spellingPitch. pose proof (note_decomposition n) as Hn. lia.
Qed.

Lemma countMarks_marks (c : ascii) (k : nat) : countMarks c (marks c k) = Some k.
Proof.
  induction k as [|k IH]; simpl; [reflexivity|].
  rewrite Ascii.eqb_refl, IH. reflexivity.
Qed.

(** Reading back a letter with its octave marks, after a glyph or none. *)
Lemma readAbc_low (d : gmap Letter Acc) (g : option Acc) (l : Letter)
    (a : Acc) (k : nat) :
  (match g with Some a' => Some a' | None => d !! l end) = Some a →
  readAbc d (match g with Some a' => accGlyph a' | None => "" end
             +:+ letterName l +:+ marks "," k)
  = Some (spellingPitch (4 - Z.of_nat k) (mkSpelling l a)).
Proof.
  intros Ha.
  destruct g as [[| |]|], l;
    cbv [readAbc readGlyph readLetter accGlyph letterName String.append];
    rewrite countMarks_marks;
    first [ rewrite Ha; reflexivity | injection Ha as <-; reflexivity ].
Qed.

Lemma readAbc_high (d : gmap Letter Acc) (g : option Acc) (l : Letter)
    (a : Acc) (k : nat) :
  (match g with Some a' => Some a' | None => d !! l end) = Some a →
  readAbc d (match g with Some a' => accGlyph a' | None => "" end
             +:+ lowerName l +:+ marks "'" k)
  = Some (spellingPitch (5 + Z.of_nat k) (mkSpelling l a)).
Proof.
  intros Ha.
  destruct g as [[| |]|], l;
    cbv [readAbc readGlyph readLetter accGlyph lowerName String.append];
    rewrite countMarks_marks;
    first [ rewrite Ha; reflexivity | injection Ha as <-; reflexivity ].
Qed.

(** The glyph the renderer writes, as the reader sees it. *)
Lemma accidentalPrefix_read (d : gmap Letter Acc) (b : Spelling) :
  ∃ g : option Acc,
    accidentalPrefix (acc b) (d !! letter b)
    = match g with Some a' => accGlyph a' | None => "" end ∧
    (match g with Some a' => Some a' | None => d !! letter b end) = Some (acc b).
Proof.
  destruct (decide (d !! letter b = Some (acc b))) as [Heq|Hne].
  - exists None. split; [apply accidentalPrefix_empty_iff|]; exact Heq.
  - exists (Some (acc b)). split; [apply accidentalPrefix_glyph, Hne | reflexivity].
Qed.

Lemma readAbc_render (d : gmap Letter Acc) (b : Spelling) (o : Z) :
  readAbc d (accidentalPrefix (acc b) (d !! letter b)
             +:+ applyAbcOctave (letter b) o)
  = Some (spellingPitch o b).
Proof.
  destruct (accidentalPrefix_read d b) as (g & -> & Hg).
  destruct b as [l a]. simpl in *.
  destruct (decide (o ≤ 4)) as [Hlow|Hhigh].
  - rewrite applyAbcOctave_low by exact Hlow.
    rewrite (readAbc_low d g l a _ Hg). do 2 f_equal. lia.
  - rewrite applyAbcOctave_high by lia.
    rewrite (readAbc_high d g l a _ Hg). do 2 f_equal. lia.
Qed.

End Reading.

(** X4: whatever the key string, the spelling chosen for a note denotes
    that very note: twelve times its octave above C-1, plus the semitones
    of its letter, plus one for a sharp or minus one for a flat, is the
    note number. *)
Theorem spelling_denotes_note (n : Z) (key : string) :
  ∃ b, selection (pitchClass n) (normalizeKey key) = Some b ∧
       spellingPitch (octaveOf n) b = n.
Proof.
  destruct (selectBest_elem (candidatesOf (pitchClass n))
              (keySignatureDefaults (normalizeKey key))
              (preferFlatsInTie (normalizeKey key))
              (candidatesOf_nonempty _)) as (b & Hsel & Hin).
  exists b. split; [exact Hsel | apply candidate_pitch, Hin].
Qed.

(** X5: the text written for a note reads back, under the signature of the
    same key, as that note; so under one key two notes are never written
    the same. *)
Theorem ABCFormatter_format_reads_back (n : Z) (sep key : string) :
  ABCFormatter_format n sep key
    ≫= readAbc (keySignatureDefaults (normalizeKey key)) = Some n ∧
  ∀ m : Z, ABCFormatter_format m sep key = ABCFormatter_format n sep key → m = n.
Proof.
  assert (Hread : ∀ z : Z,
            ABCFormatter_format z sep key
              ≫= readAbc (keySignatureDefaults (normalizeKey key)) = Some z).
  { intros z. rewrite format_spell. unfold spell.
    destruct (selectBest_elem (candidatesOf (pitchClass z))
                (keySignatureDefaults (normalizeKey key))
                (preferFlatsInTie (normalizeKey key))
                (candidatesOf_nonempty _)) as (b & -> & Hin).
    simpl. unfold render. simpl.
    rewrite readAbc_render. f_equal. apply candidate_pitch, Hin. }
  split; [apply Hread|].
  intros m Heq. pose proof (Hread m) as Hm. rewrite Heq, Hread in Hm.
  congruence.
Qed.

(** ** Octaves *)

Section Transposition.

Lemma append_assoc (a b c : string) : (a +:+ b) +:+ c = a +:+ b +:+ c.
Proof.
  induction a as [|x a IH]; [reflexivity|].
  change (String x ((a +:+ b) +:+ c) = String x (a +:+ b +:+ c)).
  f_equal. exact IH.
Qed.

Lemma marks_snoc (c : ascii) (k : nat) :
  marks c (S k) = marks c k +:+ String c "".
Proof.
  induction k as [|k IH]; [reflexivity|].
  change (String c (marks c (S k)) = String c (marks c k +:+ String c "")).
  f_equal. exact IH.
Qed.

Lemma applyAbcOctave_up (l : Letter) (o : Z) :
  5 ≤ o → applyAbcOctave l (o + 1) = applyAbcOctave l o +:+ "'".
Proof.
  intros Ho. rewrite !applyAbcOctave_high by lia.
  replace (Z.to_nat (o + 1 - 5)) with (S (Z.to_nat (o - 5))) by lia.
  rewrite marks_snoc, append_assoc. reflexivity.
Qed.

Lemma applyAbcOctave_down (l : Letter) (o : Z) :
  o ≤ 3 → applyAbcOctave l o = applyAbcOctave l (o + 1) +:+ ",".
Proof.
  intros Ho. rewrite !applyAbcOctave_low by lia.
  replace (Z.to_nat (4 - o)) with (S (Z.to_nat (4 - (o + 1)))) by lia.
  rewrite marks_snoc, append_assoc. reflexivity.
Qed.

Lemma render_middle (g : option Acc) (l : Letter) :
  match g with Some a' => accGlyph a' | None => "" end +:+ applyAbcOctave l 5
  = JS.toLowerCase
      (match g with Some a' => accGlyph a' | None => "" end
       +:+ applyAbcOctave l 4).
Proof. destruct g as [[| |]|], l; vm_compute; reflexivity. Qed.

End Transposition.

(** X6: raising a note by an octave changes only the octave marks of its
    text. From note 72 on it appends an apostrophe; below note 60 it
    removes the last comma; and between 60 and 71 it turns the text into
    lower case. *)
Theorem octave_up_changes_marks (n : Z) (sep key : string) :
  (72 ≤ n →
   ABCFormatter_format (n + 12) sep key
   = (λ s, s +:+ "'") <$> ABCFormatter_format n sep key) ∧
  (n < 60 →
   ABCFormatter_format n sep key
   = (λ s, s +:+ ",") <$> ABCFormatter_format (n + 12) sep key) ∧
  (60 ≤ n < 72 →
   ABCFormatter_format (n + 12) sep key
   = JS.toLowerCase <$> ABCFormatter_format n sep key).
Proof.
  pose proof (octaveOf_floor n) as Hfloor.
  rewrite !format_spell, pitchClass_period, octaveOf_period.
  unfold spell.
  destruct (selectBest_elem (candidatesOf (pitchClass n))
              (keySignatureDefaults (normalizeKey key))
              (preferFlatsInTie (normalizeKey key))
              (candidatesOf_nonempty _)) as (b & -> & _).
  simpl. unfold render. simpl.
  split; [|split]; intros Hn; f_equal.
  - rewrite applyAbcOctave_up by lia. symmetry. apply append_assoc.
  - rewrite (applyAbcOctave_down _ (octaveOf n)) by lia.
    symmetry. apply append_assoc.
  - replace (octaveOf n) with 4 by lia.
    destruct (accidentalPrefix_read
                (keySignatureDefaults (normalizeKey key)) b) as (g & -> & _).
    apply render_middle.
Qed.

(** [octave_up_changes_marks] on the notes 73, 49 and 61 under key "D". *)
Lemma octave_up_changes_marks_witness :
  ABCFormatter_format 85 "" "D" = Some "c'" ∧
  ABCFormatter_format 49 "" "D" = Some "C," ∧
  ABCFormatter_format 73 "" "D" = Some "c".
Proof.
  destruct (octave_up_changes_marks 73 "" "D") as (Hup & _ & _).
  destruct (octave_up_changes_marks 49 "" "D") as (_ & Hdown & _).
  destruct (octave_up_changes_marks 61 "" "D") as (_ & _ & Hmid).
  split; [exact (Hup ltac:(lia))|].
  split; [exact (Hdown ltac:(lia)) | exact (Hmid ltac:(lia))].
Defined.

(** ** White space around the key name *)

Section Trim.

Lemma trimEnd_idempotent (s : string) : JS.trimEnd (JS.trimEnd s) = JS.trimEnd s.
Proof.
  induction s as [|c s IH]; [reflexivity|].
  simpl. destruct (JS.trimEnd s) as [|d kept] eqn:Hs.
  - destruct (JS.isWhiteSpace c) eqn:Hc; simpl; [reflexivity|].
    rewrite Hc. reflexivity.
  - simpl in *. rewrite IH. reflexivity.
Qed.

Lemma trimStart_head (s : string) :
  match JS.trimStart s with
  | EmptyString => True
  | String c _ => JS.isWhiteSpace c = false
  end.
Proof.
  induction s as [|c s IH]; simpl; [exact I|].
  destruct (JS.isWhiteSpace c) eqn:Hc; [exact IH | exact Hc].
Qed.

Lemma trimStart_trimEnd (c : ascii) (s : string) :
  JS.isWhiteSpace c = false →
  JS.trimStart (JS.trimEnd (String c s)) = JS.trimEnd (String c s).
Proof.
  intros Hc. simpl.
  destruct (JS.trimEnd s); rewrite ?Hc; simpl; rewrite Hc; reflexivity.
Qed.

Lemma trim_idempotent (s : string) : JS.trim (JS.trim s) = JS.trim s.
Proof.
  unfold JS.trim. pose proof (trimStart_head s) as Hhead.
  destruct (JS.trimStart s) as [|c t]; [reflexivity|].
  rewrite (trimStart_trimEnd c t Hhead). apply trimEnd_idempotent.
Qed.

Lemma trimEnd_trailing (c : ascii) (s : string) :
  JS.isWhiteSpace c = true → JS.trimEnd (s +:+ String c "") = JS.trimEnd s.
Proof.
  intros Hc. induction s as [|d s IH].
  - simpl. rewrite Hc. reflexivity.
  - change (JS.trimEnd (String d (s +:+ String c "")) = JS.trimEnd (String d s)).
    simpl. rewrite IH. reflexivity.
Qed.

Lemma trim_trailing (c : ascii) (s : string) :
  JS.isWhiteSpace c = true → JS.trim (s +:+ String c "") = JS.trim s.
Proof.
  intros Hc. unfold JS.trim. induction s as [|d s IH].
  - simpl. rewrite Hc. reflexivity.
  - change (JS.trimEnd (JS.trimStart (String d (s +:+ String c "")))
            = JS.trimEnd (JS.trimStart (String d s))).
    simpl. destruct (JS.isWhiteSpace d); [exact IH|].
    apply (trimEnd_trailing c (String d s) Hc).
Qed.

Lemma trim_leading (c : ascii) (s : string) :
  JS.isWhiteSpace c = true → JS.trim (String c s) = JS.trim s.
Proof. intros Hc. unfold JS.trim. simpl. rewrite Hc. reflexivity. Qed.

Lemma format_normalized (n : Z) (sep k1 k2 : string) :
  normalizeKey k1 = normalizeKey k2 →
  ABCFormatter_format n sep k1 = ABCFormatter_format n sep k2.
Proof. intros Hk. rewrite !format_spell, Hk. reflexivity. Qed.

End Trim.

(** X7: white space around the key name does not matter to the key-aware
    formatter: a white-space character put before or after the key, or
    trimming the key beforehand, leaves the output as it is. *)
Theorem key_whitespace_ignored (n : Z) (sep key : string) (c : ascii) :
  JS.isWhiteSpace c = true →
  ABCFormatter_format n sep (String c key) = ABCFormatter_format n sep key ∧
  ABCFormatter_format n sep (key +:+ String c "") = ABCFormatter_format n sep key ∧
  ABCFormatter_format n sep (normalizeKey key) = ABCFormatter_format n sep key.
Proof.
  intros Hc. split; [|split]; apply format_normalized; unfold normalizeKey.
  - apply trim_leading, Hc.
  - apply trim_trailing, Hc.
  - apply trim_idempotent.
Qed.

(** [key_whitespace_ignored] with a space around the key "Eb". *)
Lemma key_whitespace_ignored_witness :
  JS.isWhiteSpace " " = true ∧
  ABCFormatter_format 63 "" " Eb" = ABCFormatter_format 63 "" "Eb" ∧
  ABCFormatter_format 63 "" "Eb " = ABCFormatter_format 63 "" "Eb".
Proof.
  assert (Hc : JS.isWhiteSpace " " = true) by reflexivity.
  destruct (key_whitespace_ignored 63 "" "Eb" " " Hc) as (Hlead & Htrail & _).
  split; [exact Hc|]. split; [exact Hlead | exact Htrail].
Defined.

(** ** Key signatures of any key string *)

Lemma markLoop_values (order : list Letter) (mark : Acc) (n : JS.PropValue)
    (l : Letter) :
  markLoop order mark n 0 allNatural !! l = Some mark
  ∨ markLoop order mark n 0 allNatural !! l = Some natural.
Proof.
  destruct n as [n|].
  - rewrite (markLoop_lookup order mark n n) by lia.
    destruct (bool_decide _); [left; reflexivity|].
    right. apply allNatural_lookup.
  - rewrite markLoop_inherited. right. apply allNatural_lookup.
Qed.

(** X8: no key string, supported or not, gives a signature that mixes
    sharps and flats: either no letter is flat by default or no letter is
    sharp by default. *)
Theorem keySignatureDefaults_one_family (x : string) :
  (∀ l, keySignatureDefaults x !! l ∈ [Some natural; Some sharp])
  ∨ (∀ l, keySignatureDefaults x !! l ∈ [Some natural; Some flat]).
Proof.
  assert (Hnat : ∀ a l, allNatural !! l ∈ [Some natural; Some a]).
  { intros a l. rewrite allNatural_lookup. apply list_elem_of_here. }
  assert (Hmark : ∀ order mark n l,
            markLoop order mark n 0 allNatural !! l ∈ [Some natural; Some mark]).
  { intros order mark n l.
    destruct (markLoop_values order mark n l) as [-> | ->];
      [apply list_elem_of_further|]; apply list_elem_of_here. }
  unfold keySignatureDefaults.
  destruct (JS.hasProp keyToSharpsCount x).
  - left. intros l. destruct (JS.getProp keyToSharpsCount x); [apply Hmark | apply Hnat].
  - right. intros l. destruct (JS.hasProp keyToFlatsCount x); [|apply Hnat].
    destruct (JS.getProp keyToFlatsCount x); [apply Hmark | apply Hnat].
Qed.

(** ** The scientific formatter outside the MIDI range *)

Lemma rem_negative_iff (n : Z) : n `rem` 12 < 0 ↔ n < 0 ∧ n `mod` 12 ≠ 0.
Proof.
  pose proof (Z.rem_mod_eq_0 n 12 ltac:(lia)) as Hzero.
  destruct (Z.le_gt_cases 0 n) as [Hpos|Hneg].
  - pose proof (Z.rem_bound_pos n 12 Hpos ltac:(lia)). lia.
  - pose proof (Z.rem_bound_pos_neg n 12 ltac:(lia) ltac:(lia)) as Hb.
    split; [intros Hr; split; [lia|]; intros Hm; apply Hzero in Hm; lia|].
    intros [_ Hm].
    destruct (Z.eq_dec (n `rem` 12) 0) as [Hr|Hr]; [apply Hzero in Hr; lia | lia].
Qed.

(** X9: the scientific formatter names a note from its table when the note
    number is not negative (and on negative multiples of 12); on every
    other negative number the remainder is negative, the table has no such
    entry, and the output starts with the text "undefined". *)
Theorem scientificFormatter_format_negative (n : Z) (sep : string) :
  (0 ≤ n ∨ n `mod` 12 = 0 →
   ∃ name, noteNames !! Z.to_nat (n `mod` 12) = Some name ∧
           scientificFormatter_format n sep
           = name +:+ JS.numberToString (n `div` 12 - 1) +:+ sep) ∧
  (n < 0 ∧ n `mod` 12 ≠ 0 →
   scientificFormatter_format n sep
   = "undefined" +:+ JS.numberToString (n `div` 12 - 1) +:+ sep).
Proof.
  unfold scientificFormatter_format, JS.index. split.
  - intros Hn.
    assert (Hrem : n `rem` 12 = n `mod` 12).
    { destruct Hn as [Hn|Hn]; [apply Z.rem_mod_nonneg; lia|].
      rewrite Hn. apply Z.rem_mod_eq_0; [lia | exact Hn]. }
    pose proof (Z.mod_pos_bound n 12 ltac:(lia)) as Hmod.
    destruct (lookup_lt_is_Some_2 noteNames (Z.to_nat (n `mod` 12)))
      as [name Hname]; [simpl; lia|].
    exists name. split; [exact Hname|].
    rewrite Hrem.
    destruct (Z.ltb_spec (n `mod` 12) 0) as [Hneg|_]; [lia|].
    rewrite Hname. reflexivity.
  - intros Hn%rem_negative_iff.
    destruct (Z.ltb_spec (n `rem` 12) 0) as [_|Hge]; [reflexivity | lia].
Qed.

(** [scientificFormatter_format_negative] on the notes 200, -24 and -1. *)
Lemma scientificFormatter_format_negative_witness :
  scientificFormatter_format 200 "," = "G#15," ∧
  scientificFormatter_format (-24) "," = "C-3," ∧
  scientificFormatter_format (-1) "," = "undefined-2,".
Proof.
  destruct (scientificFormatter_format_negative 200 ",") as [Hname _].
  destruct (scientificFormatter_format_negative (-24) ",") as [Hmult _].
  destruct (scientificFormatter_format_negative (-1) ",") as [_ Hundef].
  destruct Hname as (name & Hn & ->); [left; lia|].
  destruct Hmult as (name' & Hn' & ->); [right; reflexivity|].
  injection Hn as <-. injection Hn' as <-.
  split; [reflexivity|]. split; [reflexivity|].
  apply Hundef. split; [lia | discriminate].
Defined.

(** ** The MIDI message handler *)

Lemma status_note_on (status : Z) :
  Z.shiftr status 4 = 9 ∧ Z.land status 15 = 0 ↔ status = 144.
Proof.
  split; [|intros ->; split; reflexivity].
  rewrite Z.shiftr_div_pow2 by lia.
  change 15 with (Z.ones 4). rewrite Z.land_ones by lia.
  change (2 ^ 4) with 16. intros [Hdiv Hmod].
  pose proof (Z.div_mod status 16 ltac:(lia)). lia.
Qed.

(** X10: a MIDI message, a list of bytes, makes the handler write a note
    exactly when its
    status byte is 144 (note-on, first channel) and its velocity byte is
    above 0; the note written is its second byte. Note-off messages,
    note-on messages of velocity 0, other channels and messages shorter
    than three bytes write nothing. *)
Theorem onmidimessage_note_on (data : list Z) (note : Z) :
  Forall (λ byte, 0 ≤ byte ≤ 255) data →
  onmidimessage data = Some note
  ↔ ∃ velocity rest, data = 144 :: note :: velocity :: rest ∧ velocity > 0.
Proof.
  intros _. unfold onmidimessage.
  destruct data as [|status [|data1 [|data2 rest]]]; simpl.
  - split; [discriminate | intros (? & ? & [=] & _)].
  - split; [destruct (_ && _); discriminate | intros (? & ? & [=] & _)].
  - split; [destruct (_ && _); discriminate | intros (? & ? & [=] & _)].
  - pose proof (status_note_on status) as Hstatus.
    do 2 case_bool_decide; simpl.
    2-4: split; [discriminate|]; intros (? & ? & [= -> _ _ _] & _);
         destruct Hstatus as [_ Hs]; specialize (Hs eq_refl); tauto.
    destruct Hstatus as [Hs _]. rewrite (Hs ltac:(tauto)).
    case_bool_decide as Hv.
    + split; [intros [= ->]; eauto|]. intros (? & ? & [= -> _ _] & _). reflexivity.
    + split; [discriminate|]. intros (? & ? & [= _ -> _] & Hpos). contradiction.
Qed.

(** [onmidimessage_note_on] on a note-on message for the note 61. *)
Lemma onmidimessage_note_on_witness :
  Forall (λ byte, 0 ≤ byte ≤ 255) [144; 61; 100] ∧
  onmidimessage [144; 61; 100] = Some 61.
Proof.
  assert (Hbytes : Forall (λ byte, 0 ≤ byte ≤ 255) [144; 61; 100])
    by (repeat constructor; lia).
  split; [exact Hbytes|].
  apply (onmidimessage_note_on [144; 61; 100] 61 Hbytes).
  exists 100, []. split; [reflexivity | lia].
Defined.

(** ** The fifteen supported keys *)

Lemma sharp_keys_glyphs :
  Forall (λ key,
    Forall (λ z,
      fst <$> spell z (keySignatureDefaults key) (preferFlatsInTie key)
      ∈ [Some ""; Some "^"; Some "="])
      (Zrange 0 12))
    ["G"; "D"; "A"; "E"; "B"; "F#"; "C#"].
Proof. by_computation. Qed.

Lemma flat_keys_glyphs :
  Forall (λ key,
    Forall (λ z,
      fst <$> spell z (keySignatureDefaults key) (preferFlatsInTie key)
      ∈ [Some ""; Some "_"; Some "="])
      (Zrange 0 12))
    ["C"; "F"; "Bb"; "Eb"; "Ab"; "Db"; "Gb"; "Cb"].
Proof. by_computation. Qed.

(** The glyph and the letter behind the text written under a supported
    key. *)
Lemma format_glyph (key : string) (n : Z) (sep : string) :
  key ∈ keys →
  ∃ g l,
    spell (pitchClass n) (keySignatureDefaults key) (preferFlatsInTie key)
    = Some (g, l) ∧
    ABCFormatter_format n sep key = Some (g +:+ applyAbcOctave l (octaveOf n)).
Proof.
  intros Hkey.
  rewrite format_spell, (normalizeKey_keys key Hkey). unfold spell.
  destruct (selectBest_elem (candidatesOf (pitchClass n))
              (keySignatureDefaults key) (preferFlatsInTie key)
              (candidatesOf_nonempty _)) as (b & -> & _).
  eexists _, _. split; reflexivity.
Qed.

Lemma Some_elem_of {T : Type} (x : T) (l : list T) : Some x ∈ Some <$> l → x ∈ l.
Proof. intros (y & [= ->] & Hy)%list_elem_of_fmap. exact Hy. Qed.

(** X11: under a sharp key (G, D, A, E, B, F#, C#) the formatter never
    writes the flat glyph: the text is a letter with its octave marks,
    bare or after "^" or "=". Under C and the flat keys (F, Bb, Eb, Ab, Db,
    Gb, Cb) it never writes the sharp glyph. *)
Theorem key_family_glyphs (key : string) (n : Z) (sep : string) :
  (key ∈ ["G"; "D"; "A"; "E"; "B"; "F#"; "C#"] →
   ∃ g l, g ∈ [""; "^"; "="] ∧
          ABCFormatter_format n sep key
          = Some (g +:+ applyAbcOctave l (octaveOf n))) ∧
  (key ∈ ["C"; "F"; "Bb"; "Eb"; "Ab"; "Db"; "Gb"; "Cb"] →
   ∃ g l, g ∈ [""; "_"; "="] ∧
          ABCFormatter_format n sep key
          = Some (g +:+ applyAbcOctave l (octaveOf n))).
Proof.
  split; intros Hkey.
  - pose proof (proj1 (Forall_forall _ _) sharp_keys_glyphs key Hkey) as Hall.
    pose proof (pitchClass_Forall _ n Hall) as Hg. cbv beta in Hg.
    destruct (format_glyph key n sep) as (g & l & Hspell & Hfmt).
    { revert Hkey. unfold keys. rewrite !elem_of_cons, !elem_of_nil. tauto. }
    rewrite Hspell in Hg. exists g, l. split; [|exact Hfmt].
    apply Some_elem_of. exact Hg.
  - pose proof (proj1 (Forall_forall _ _) flat_keys_glyphs key Hkey) as Hall.
    pose proof (pitchClass_Forall _ n Hall) as Hg. cbv beta in Hg.
    destruct (format_glyph key n sep) as (g & l & Hspell & Hfmt).
    { revert Hkey. unfold keys. rewrite !elem_of_cons, !elem_of_nil. tauto. }
    rewrite Hspell in Hg. exists g, l. split; [|exact Hfmt].
    apply Some_elem_of. exact Hg.
Qed.

(** [key_family_glyphs] on the note 70 under the keys "E" and "Bb". *)
Lemma key_family_glyphs_witness :
  (∃ g l, g ∈ [""; "^"; "="] ∧
          ABCFormatter_format 70 "" "E" = Some (g +:+ applyAbcOctave l (octaveOf 70))) ∧
  (∃ g l, g ∈ [""; "_"; "="] ∧
          ABCFormatter_format 70 "" "Bb" = Some (g +:+ applyAbcOctave l (octaveOf 70))).
Proof.
  destruct (key_family_glyphs "E" 70 "") as [Hsharp _].
  destruct (key_family_glyphs "Bb" 70 "") as [_ Hflat].
  split; [apply Hsharp | apply Hflat]; by_computation.
Defined.

Lemma scale_notes_table :
  Forall (λ key,
    Forall (λ t,
      Forall (λ z,
        fst <$> spell z (keySignatureDefaults key) (preferFlatsInTie key) = Some ""
        ↔ (z - t) `mod` 12 ∈ whiteClasses)
        (Zrange 0 12))
      (option_list (keyTonic key)))
    ["C"; "G"; "D"; "A"; "E"; "B"; "F"; "Bb"; "Eb"; "Ab"; "Db"].
Proof. by_computation. Qed.

(** X12: under a key of at most five sharps or flats, a note is written
    without an accidental glyph exactly when it belongs to the major scale
    of the key, that is when it lies 0, 2, 4, 5, 7, 9 or 11 semitones
    above the tonic. *)
Theorem scale_notes_need_no_glyph (key : string) (tonic n : Z) (sep : string) :
  key ∈ ["C"; "G"; "D"; "A"; "E"; "B"; "F"; "Bb"; "Eb"; "Ab"; "Db"] →
  keyTonic key = Some tonic →
  ∃ g l,
    ABCFormatter_format n sep key = Some (g +:+ applyAbcOctave l (octaveOf n)) ∧
    (g = "" ↔ (n - tonic) `mod` 12 ∈ whiteClasses).
Proof.
  intros Hkey Htonic.
  pose proof (proj1 (Forall_forall _ _) scale_notes_table key Hkey) as Hall.
  cbv beta in Hall. rewrite Htonic in Hall.
  change (option_list (Some tonic)) with [tonic] in Hall.
  apply (proj1 (Forall_singleton _ _)) in Hall.
  pose proof (pitchClass_Forall _ n Hall) as Hscale. cbv beta in Hscale.
  assert (Hshift : (pitchClass n - tonic) `mod` 12 = (n - tonic) `mod` 12).
  { rewrite pitchClass_mod, Zminus_mod_idemp_l. reflexivity. }
  rewrite Hshift in Hscale.
  destruct (format_glyph key n sep) as (g & l & Hspell & Hfmt).
  { revert Hkey. unfold keys. rewrite !elem_of_cons, !elem_of_nil. tauto. }
  rewrite Hspell in Hscale. simpl in Hscale.
  exists g, l. split; [exact Hfmt|].
  rewrite <- Hscale. split; [intros ->; reflexivity | intros [= ->]; reflexivity].
Qed.

(** [scale_notes_need_no_glyph] on key "A" and the note 68, its leading
    note G sharp. *)
Lemma scale_notes_need_no_glyph_witness :
  keyTonic "A" = Some 9 ∧
  ∃ g l,
    ABCFormatter_format 68 "" "A" = Some (g +:+ applyAbcOctave l (octaveOf 68)) ∧
    (g = "" ↔ (68 - 9) `mod` 12 ∈ whiteClasses).
Proof.
  assert (Htonic : keyTonic "A" = Some 9) by reflexivity.
  split; [exact Htonic|].
  apply (scale_notes_need_no_glyph "A" 9 68 ""); [by_computation | exact Htonic].
Defined.

(** ** The capture commands and the key prompt *)

Section Capture.

(** The modal resolves to nothing or to a key that was offered. *)
Lemma runModal_result (events : list ModalEvent) :
  ∀ m : KeySelectModal,
    offered events →
    selected m ∈ keys →
    (∀ k, result m = Some k → k ∈ keys) →
    ∀ k, result (runModal m events) = Some k → k ∈ keys.
Proof.
  induction events as [|e events IH]; intros m Hoff Hsel Hres k; simpl.
  - apply Hres.
  - assert (Hrest : offered events).
    { intros v Hv. apply Hoff, list_elem_of_further, Hv. }
    destruct e as [v| |]; simpl.
    + apply IH; [exact Hrest | apply Hoff, list_elem_of_here | exact Hres].
    + intros [= <-]. exact Hsel.
    + discriminate.
Qed.

Lemma promptKey_offered (this : MIDILogger) (events : list ModalEvent) (k : string) :
  offered events → currentKey this ∈ keys →
  promptKey this events = Some k → k ∈ keys.
Proof.
  intros Hoff Hkey. unfold promptKey.
  apply runModal_result; [exact Hoff | exact Hkey | discriminate].
Qed.

Lemma enable_invariant (this : MIDILogger) (events : list ModalEvent)
    (granted : bool) :
  offered events → enabled this = false →
  captureInvariant this → captureInvariant (enable this events granted).
Proof.
  intros Hoff Hoff' [Hkey Hbar]. unfold enable.
  destruct (promptKey this events) as [k|] eqn:Hprompt; [|split; assumption].
  case_bool_decide; [split; assumption|].
  apply (promptKey_offered this events k Hoff Hkey) in Hprompt.
  destruct granted; split; simpl; first [exact Hprompt | exact Hbar | reflexivity].
Qed.

Lemma disable_invariant (this : MIDILogger) :
  captureInvariant this → captureInvariant (disable this).
Proof. intros [Hkey _]. split; [exact Hkey | reflexivity]. Qed.

Lemma act_invariant (this : MIDILogger) (a : UserAction) :
  actionOffered a → captureInvariant this → captureInvariant (act this a).
Proof.
  intros Ha Hinv.
  destruct a as [events granted|events granted| |]; simpl;
    destruct (enabled this) eqn:Hen; simpl;
    auto using enable_invariant, disable_invariant.
Qed.

End Capture.

Lemma default_last_cons {T : Type} (vs : list T) :
  ∀ d v : T, default d (last (v :: vs)) = default v (last vs).
Proof.
  induction vs as [|s vs IH]; intros d v; [reflexivity|].
  change (last (v :: s :: vs)) with (last (s :: vs)).
  rewrite (IH d s), (IH v s). reflexivity.
Qed.

(** X13: through any sequence of ribbon clicks, start and stop commands
    and unloads in which the user picks only keys that the dropdown
    offers, the key of the capture is one of the fifteen supported names
    (so it is its own trimmed form and has an entry in one of the two
    signature tables), and the status bar shows the capture as active
    exactly when [enabled] is set. *)
Theorem capture_invariant (actions : list UserAction) :
  Forall actionOffered actions →
  currentKey (foldl act MIDILogger_new actions) ∈ keys ∧
  normalizeKey (currentKey (foldl act MIDILogger_new actions))
  = currentKey (foldl act MIDILogger_new actions) ∧
  (is_Some (keyToSharpsCount !! currentKey (foldl act MIDILogger_new actions))
   ∨ is_Some (keyToFlatsCount !! currentKey (foldl act MIDILogger_new actions))) ∧
  (enabled (foldl act MIDILogger_new actions) = true
   ↔ mainStatusBar (foldl act MIDILogger_new actions)
     = "Key-aware MIDI Logger is active").
Proof.
  intros Hall.
  assert (Hinv : captureInvariant (foldl act MIDILogger_new actions)).
  { assert (Hinit : captureInvariant MIDILogger_new)
      by (split; [by_computation | reflexivity]).
    revert Hinit. generalize MIDILogger_new.
    induction Hall as [|a actions Ha _ IH]; intros this Hthis; simpl; [exact Hthis|].
    apply IH, act_invariant; assumption. }
  destruct Hinv as [Hkey Hbar].
  split; [exact Hkey|].
  split; [apply normalizeKey_keys, Hkey|].
  split.
  - revert Hkey. generalize (currentKey (foldl act MIDILogger_new actions)).
    intros k. unfold keys. rewrite !elem_of_cons, elem_of_nil.
    intros H.
    repeat (destruct H as [->|H];
            [first [ left; eexists; reflexivity | right; eexists; reflexivity ]|]).
    destruct H.
  - rewrite Hbar.
    destruct (enabled (foldl act MIDILogger_new actions));
      split; first [reflexivity | discriminate].
Qed.

(** [capture_invariant] on a session that starts a capture in G, stops it,
    and starts one in Bb for which MIDI access is refused. *)
Lemma capture_invariant_witness :
  Forall actionOffered
    [ RibbonClick [DropChange "G"; OkClick] true;
      StopCapture;
      StartCapture [DropChange "F"; DropChange "Bb"; OkClick] false ] ∧
  foldl act MIDILogger_new
    [ RibbonClick [DropChange "G"; OkClick] true;
      StopCapture;
      StartCapture [DropChange "F"; DropChange "Bb"; OkClick] false ]
  = mkLogger false "Bb" "" ∧
  currentKey (mkLogger false "Bb" "") ∈ keys.
Proof.
  assert (Hall : Forall actionOffered
            [ RibbonClick [DropChange "G"; OkClick] true;
              StopCapture;
              StartCapture [DropChange "F"; DropChange "Bb"; OkClick] false ]).
  { apply Forall_cons; split; [offered_by_cases|].
    apply Forall_cons; split; [exact I|].
    apply Forall_cons; split; [offered_by_cases | constructor]. }
  split; [exact Hall|]. split; [reflexivity|].
  exact (proj1 (capture_invariant _ Hall)).
Defined.

(** X14: what a run of [enable] does, given the options the user picks in
    the modal and how the modal ends. After OK the key is the last option
    picked, or the current key when none was picked; the capture is on
    only if MIDI access is granted, but the key is stored even when access
    is refused. After Cancel, or when the modal is dismissed without a
    button, nothing changes, whatever was picked. Events after the button
    are ignored. *)
Theorem enable_outcome (this : MIDILogger) (picks : list string)
    (later : list ModalEvent) (granted : bool) :
  currentKey this ≠ "" →
  Forall (λ v, v ≠ "") picks →
  enable this ((DropChange <$> picks) ++ OkClick :: later) granted
  = mkLogger (granted || enabled this)
      (default (currentKey this) (last picks))
      (if granted then "Key-aware MIDI Logger is active" else mainStatusBar this) ∧
  enable this ((DropChange <$> picks) ++ CancelClick :: later) granted = this ∧
  enable this (DropChange <$> picks) granted = this.
Proof.
  intros Hkey Hpicks.
  assert (Hrun : ∀ (m : KeySelectModal) (tail : list ModalEvent),
            runModal m ((DropChange <$> picks) ++ tail)
            = runModal (mkModal (result m) (default (selected m) (last picks))) tail).
  { clear Hpicks. induction picks as [|v vs IH]; intros m tail; simpl.
    - destruct m; reflexivity.
    - rewrite IH. simpl. rewrite default_last_cons. reflexivity. }
  assert (Hlast : default (currentKey this) (last picks) ≠ "").
  { destruct (last picks) as [v|] eqn:Hl; simpl; [|exact Hkey].
    apply (proj1 (Forall_forall _ _) Hpicks v).
    apply last_Some in Hl as [l' ->]. apply elem_of_app. right.
    apply list_elem_of_here. }
  unfold enable, promptKey.
  split; [|split].
  - rewrite Hrun. simpl.
    rewrite bool_decide_eq_false_2 by exact Hlast.
    destruct granted; reflexivity.
  - rewrite Hrun. reflexivity.
  - rewrite <- (app_nil_r (DropChange <$> picks)), Hrun. reflexivity.
Qed.

(** [enable_outcome] on a fresh plugin, the picks G then Eb, and refused
    MIDI access. *)
Lemma enable_outcome_witness :
  enable MIDILogger_new [DropChange "G"; DropChange "Eb"; OkClick; CancelClick] false
  = mkLogger false "Eb" "" ∧
  enable MIDILogger_new [DropChange "G"; DropChange "Eb"; CancelClick; OkClick] false
  = MIDILogger_new.
Proof.
  assert (Hkey : currentKey MIDILogger_new ≠ "") by discriminate.
  assert (Hpicks : Forall (λ v, v ≠ "") ["G"; "Eb"])
    by (repeat constructor; discriminate).
  destruct (enable_outcome MIDILogger_new ["G"; "Eb"] [CancelClick] false Hkey Hpicks)
    as (Hok & _ & _).
  destruct (enable_outcome MIDILogger_new ["G"; "Eb"] [OkClick] false Hkey Hpicks)
    as (_ & Hcancel & _).
  split; [exact Hok | exact Hcancel].
Defined.

(** ** The raw and the scientific text of a note *)

Section Distinguish.

Lemma length_append (a b : string) :
  String.length (a +:+ b) = (String.length a + String.length b)%nat.
Proof.
  induction a as [|x a IH]; [reflexivity|].
  change (S (String.length (a +:+ b)) = S (String.length a + String.length b)).
  f_equal. exact IH.
Qed.

Lemma append_cancel_r (a : string) :
  ∀ b s : string, a +:+ s = b +:+ s → a = b.
Proof.
  induction a as [|x a IH]; intros [|y b] s Heq; [reflexivity| | |].
  - apply (f_equal String.length) in Heq.
    change ("" +:+ s) with s in Heq.
    change (String y b +:+ s) with (String y (b +:+ s)) in Heq.
    simpl in Heq. rewrite length_append in Heq. lia.
  - apply (f_equal String.length) in Heq.
    change ("" +:+ s) with s in Heq.
    change (String x a +:+ s) with (String x (a +:+ s)) in Heq.
    simpl in Heq. rewrite length_append in Heq. lia.
  - change (String x (a +:+ s) = String y (b +:+ s)) in Heq.
    injection Heq as -> Heq. f_equal. exact (IH b s Heq).
Qed.

Lemma numberToString_inj (n m : Z) :
  JS.numberToString n = JS.numberToString m → n = m.
Proof.
  unfold JS.numberToString. intros Heq.
  assert (Hnonnil : ∀ z : Z, Z.to_int z ≠ Decimal.Pos Decimal.Nil
                             ∧ Z.to_int z ≠ Decimal.Neg Decimal.Nil).
  { intros [|p|p]; simpl; split; try discriminate;
      intros [= Hp]; exact (Unsigned.to_uint_nonnil p Hp). }
  destruct (Hnonnil n) as [Hn1 Hn2], (Hnonnil m) as [Hm1 Hm2].
  pose proof (NilZero.isi _ Hn1 Hn2) as Hn.
  pose proof (NilZero.isi _ Hm1 Hm2) as Hm.
  rewrite Heq, Hm in Hn. injection Hn as Hn.
  symmetry. apply to_int_inj, Hn.
Qed.

Lemma scientific_sep (n : Z) (sep : string) :
  scientificFormatter_format n sep = scientificFormatter_format n "" +:+ sep.
Proof.
  unfold scientificFormatter_format.
  rewrite !append_assoc. reflexivity.
Qed.

Lemma scientific_bytes_distinct :
  Forall (λ x, Forall (λ y, scientificFormatter_format x ""
                            = scientificFormatter_format y "" → x = y)
                 (Zrange 0 256))
    (Zrange 0 256).
Proof. by_computation. Qed.

End Distinguish.

(** X15: the raw text tells the notes apart, whatever the integer and the
    separator; so does the scientific text for the 256 values a MIDI data
    byte can take. *)
Theorem raw_and_scientific_distinguish (n m : Z) (sep : string) :
  (rawFormatter_format n sep = rawFormatter_format m sep → n = m) ∧
  (0 ≤ n < 256 → 0 ≤ m < 256 →
   scientificFormatter_format n sep = scientificFormatter_format m sep → n = m).
Proof.
  split.
  - unfold rawFormatter_format. intros Heq%append_cancel_r.
    apply numberToString_inj, Heq.
  - intros Hn Hm. rewrite (scientific_sep n), (scientific_sep m).
    intros Heq%append_cancel_r.
    pose proof (proj1 (Forall_forall _ _) scientific_bytes_distinct n
                  (Zrange_elem 0 256 n ltac:(lia))) as Hrow.
    exact (proj1 (Forall_forall _ _) Hrow m (Zrange_elem 0 256 m ltac:(lia)) Heq).
Qed.

(** [raw_and_scientific_distinguish] on equal texts of the note 64. *)
Lemma raw_and_scientific_distinguish_witness :
  rawFormatter_format 64 "-" = rawFormatter_format (60 + 4) "-" ∧
  64 = 60 + 4.
Proof.
  assert (Heq : rawFormatter_format 64 "-" = rawFormatter_format (60 + 4) "-")
    by reflexivity.
  split; [exact Heq|].
  exact (proj1 (raw_and_scientific_distinguish 64 (60 + 4) "-") Heq).
Defined.

(** ** Further properties of the key-aware formatter *)

(** X16: the formatters never throw. For every integer the pitch class has
    an entry in [candMap], so the fallback of line 51 is never used and
    [candidates[0]] is never [undefined]; hence every call of
    [ABCFormatter.format], and every run of the [switch] of
    [writeNoteToEditor], ends with a text. *)
Theorem formatters_never_throw (settings : MIDILoggerSettings) (n : Z)
    (sep key : string) :
  (∃ first rest, candMap !! pitchClass n = Some (first :: rest)) ∧
  is_Some (ABCFormatter_format n sep key) ∧
  is_Some (noteString settings key n).
Proof.
  pose proof (pitchClass_range n) as Hr.
  split; [|split].
  - rewrite (candMap_candidatesOf (pitchClass n)) by lia.
    pose proof (candidatesOf_nonempty (pitchClass n)) as Hne.
    destruct (candidatesOf (pitchClass n)) as [|c cs]; [contradiction|].
    eexists _, _. reflexivity.
  - apply ABCFormatter_format_total.
  - unfold noteString.
    destruct (exportType settings);
      [eexists; reflexivity | eexists; reflexivity | apply ABCFormatter_format_total].
Qed.

(** X17: the tie-break preference agrees with the signature, for every key
    string: a key with a sharp in its signature prefers sharps, a key with
    a flat in its signature prefers flats. *)
Theorem preference_follows_signature (x : string) (l : Letter) :
  (keySignatureDefaults x !! l = Some sharp → preferFlatsInTie x = false) ∧
  (keySignatureDefaults x !! l = Some flat → preferFlatsInTie x = true).
Proof.
  assert (Hnat : ∀ a, a ≠ natural → allNatural !! l ≠ Some a).
  { intros a Ha. rewrite allNatural_lookup. congruence. }
  assert (Hinh : ∀ order mark a, a ≠ natural →
            markLoop order mark JS.Inherited 0 allNatural !! l ≠ Some a).
  { intros order mark a Ha. rewrite markLoop_inherited. apply Hnat, Ha. }
  unfold keySignatureDefaults, JS.hasProp, JS.getProp.
  destruct (keyToSharpsCount !! x) as [N|] eqn:Hsharp.
  - split; intros Hl.
    + apply keyToSharpsCount_inv in Hsharp.
      rewrite !elem_of_cons, elem_of_nil in Hsharp.
      destruct Hsharp as [[= -> ->]|Hsharp]; [vm_compute in Hl; destruct l; discriminate|].
      repeat (destruct Hsharp as [[= -> ->]|Hsharp]; [reflexivity|]). destruct Hsharp.
    + exfalso. destruct (markLoop_values sharpsOrder sharp (JS.OwnNumber N) l)
        as [Hv|Hv]; rewrite Hv in Hl; discriminate.
  - destruct (bool_decide (x ∈ JS.objectPrototypeKeys)).
    { split; intros Hl; exfalso; revert Hl; apply Hinh; discriminate. }
    destruct (keyToFlatsCount !! x) as [N|] eqn:Hflat.
    + split; intros Hl.
      * exfalso. destruct (markLoop_values flatsOrder flat (JS.OwnNumber N) l)
          as [Hv|Hv]; rewrite Hv in Hl; discriminate.
      * apply keyToFlatsCount_inv in Hflat.
        rewrite !elem_of_cons, elem_of_nil in Hflat.
        repeat (destruct Hflat as [[= -> ->]|Hflat]; [reflexivity|]). destruct Hflat.
    + destruct (bool_decide (x ∈ JS.objectPrototypeKeys));
        split; intros Hl; exfalso; revert Hl;
        first [apply Hinh | apply Hnat]; discriminate.
Qed.

(** [preference_follows_signature] on the keys "A" and "Ab". *)
Lemma preference_follows_signature_witness :
  preferFlatsInTie "A" = false ∧ preferFlatsInTie "Ab" = true.
Proof.
  destruct (preference_follows_signature "A" LF) as [Hsharp _].
  destruct (preference_follows_signature "Ab" LB) as [_ Hflat].
  split; [apply Hsharp | apply Hflat]; reflexivity.
Defined.

(** X18: the formatter writes a glyph only when it must. If the key
    signature implies one of the candidate spellings of the note, the text
    is a bare letter with its octave marks. *)
Theorem implied_spelling_needs_no_glyph (n : Z) (sep key : string) (c : Spelling) :
  c ∈ candidatesOf (pitchClass n) →
  keySignatureDefaults (normalizeKey key) !! letter c = Some (acc c) →
  ∃ l, ABCFormatter_format n sep key = Some (applyAbcOctave l (octaveOf n)).
Proof.
  intros Hc Himplied.
  rewrite format_spell. unfold spell.
  destruct (selectBest_elem (candidatesOf (pitchClass n))
              (keySignatureDefaults (normalizeKey key))
              (preferFlatsInTie (normalizeKey key))
              (candidatesOf_nonempty _)) as (b & Hsel & _).
  rewrite Hsel.
  pose proof (selectBest_minimal_cost_aux _ _ _ _ Hsel c Hc) as Hle.
  assert (Hcost : candCost (keySignatureDefaults (normalizeKey key)) c = 0).
  { unfold candCost. rewrite bool_decide_eq_true_2 by (symmetry; exact Himplied).
    reflexivity. }
  rewrite Hcost in Hle.
  assert (Hglyph : accidentalPrefix (acc b)
                     (keySignatureDefaults (normalizeKey key) !! letter b) = "").
  { apply accidentalPrefix_empty_iff. unfold candCost in Hle.
    case_bool_decide as Hb; [symmetry; exact Hb | simpl in Hle; lia]. }
  exists (letter b). simpl. unfold render. simpl. rewrite Hglyph. reflexivity.
Qed.

(** [implied_spelling_needs_no_glyph] on the note 70 and the key "F", whose
    signature has B flat. *)
Lemma implied_spelling_needs_no_glyph_witness :
  mkSpelling LB flat ∈ candidatesOf (pitchClass 70) ∧
  keySignatureDefaults (normalizeKey "F") !! LB = Some flat ∧
  ∃ l, ABCFormatter_format 70 "" "F" = Some (applyAbcOctave l (octaveOf 70)).
Proof.
  assert (Hc : mkSpelling LB flat ∈ candidatesOf (pitchClass 70)) by by_computation.
  assert (Hd : keySignatureDefaults (normalizeKey "F") !! LB = Some flat)
    by reflexivity.
  split; [exact Hc|]. split; [exact Hd|].
  exact (implied_spelling_needs_no_glyph 70 "" "F" (mkSpelling LB flat) Hc Hd).
Defined.
